(** * Interguess/semver-action: the version computation of [src/index.ts]

    A shallow embedding of the action's TypeScript source and the proofs of
    the properties its specification states.

    Conventions of the embedding.
    - A JavaScript string is the list of its UTF-16 code units ([jsstring]).
    - A JavaScript number is an IEEE double.  Every number the program
      handles is a non-negative integer or [Infinity]: it is read from a run
      of decimal digits or obtained from such a number by [+ 1].  These
      doubles are modelled by the [N] they denote, with [2^1024] standing
      for [Infinity]; reading a digit run and adding round to the nearest
      double, ties to even ([roundNumber]), and printing follows
      Number::toString (shortest digits that read back, exponent form from
      [1e21]).  Up to [MAX_SAFE_INTEGER] = 2^53 - 1 all of this is exact;
      statements that need exactness carry that bound as a hypothesis.
    - Code that can throw lives in the [Completion] monad; [null] and
      [undefined] are [None].
    - The [while] loop of [bumpForUniqueness] takes fuel.
    - Log lines ([core.info]) are not part of the model. *)

From Stdlib Require Import List NArith ZArith Lia Bool String Ascii.
From Stdlib Require DecimalN Finite.
Import ListNotations.

Open Scope N_scope.

(* ================================================================== *)
(** ** JavaScript strings *)

Definition jsstring := list N.

(** Literal helper: the code units of an ASCII literal. *)
Definition js (s : string) : jsstring :=
  map N_of_ascii (list_ascii_of_string s).

(** [a === b] on strings. *)
Fixpoint strictEq (a b : jsstring) : bool :=
  match a, b with
  | [], [] => true
  | x :: a', y :: b' => (x =? y) && strictEq a' b'
  | _, _ => false
  end.

(** ECMAScript LineTerminator: LF, CR, LS, PS. *)
Definition isLineTerminator (c : N) : bool :=
  (c =? 10) || (c =? 13) || (c =? 8232) || (c =? 8233).

(** ECMAScript WhiteSpace: TAB, VT, FF, ZWNBSP and the Unicode category Zs. *)
Definition isWhiteSpace (c : N) : bool :=
  (c =? 9) || (c =? 11) || (c =? 12) || (c =? 32) || (c =? 160)
  || (c =? 5760) || ((8192 <=? c) && (c <=? 8202))
  || (c =? 8239) || (c =? 8287) || (c =? 12288) || (c =? 65279).

(** The code units [String.prototype.trim] strips. *)
Definition isTrimUnit (c : N) : bool := isWhiteSpace c || isLineTerminator c.

Fixpoint trimStart (s : jsstring) : jsstring :=
  match s with
  | c :: s' => if isTrimUnit c then trimStart s' else s
  | [] => []
  end.

Definition trimEnd (s : jsstring) : jsstring := rev (trimStart (rev s)).

(** [s.trim()] *)
Definition trim (s : jsstring) : jsstring := trimEnd (trimStart s).

(** Upper case of one code unit.  Exact on Basic Latin, on Latin-1
    Supplement (where [U+00B5] goes to [U+039C], [U+00DF] to ["SS"] and
    [U+00FF] to [U+0178]) and on the two other units whose upper case is a
    Basic Latin letter, [U+0131] (dotless i) and [U+017F] (long s).  Units
    above Latin-1 are otherwise left as they are: the upper case of none of
    them consists of Basic Latin letters of ["MAJOR"] or ["MINOR"], the only
    strings the result is compared with. *)
Definition upperUnit (c : N) : jsstring :=
  if (97 <=? c) && (c <=? 122) then [c - 32]
  else if c =? 181 then [924]
  else if c =? 223 then [83; 83]
  else if (224 <=? c) && (c <=? 254) && negb (c =? 247) then [c - 32]
  else if c =? 255 then [376]
  else if c =? 305 then [73]
  else if c =? 383 then [83]
  else [c].

(** [s.toUpperCase()] *)
Definition toUpperCase (s : jsstring) : jsstring := flat_map upperUnit s.

(** [\d] *)
Definition isDigit (c : N) : bool := (48 <=? c) && (c <=? 57).

(** Greedy [\d*]: the longest run of digits at the head, and the rest. *)
Fixpoint spanDigits (s : jsstring) : jsstring * jsstring :=
  match s with
  | c :: s' =>
      if isDigit c then let (ds, r) := spanDigits s' in (c :: ds, r)
      else ([], s)
  | [] => ([], [])
  end.

(** Matching a literal at the head: the rest of the input after it. *)
Fixpoint stripPrefix (p s : jsstring) : option jsstring :=
  match p, s with
  | [], _ => Some s
  | x :: p', y :: s' => if x =? y then stripPrefix p' s' else None
  | _ :: _, [] => None
  end.

(* ================================================================== *)
(** ** JavaScript numbers (non-negative integers) *)

Definition MAX_SAFE_INTEGER : N := 2 ^ 53 - 1.

Definition safeInteger (n : N) : Prop := n <= MAX_SAFE_INTEGER.

(** A run of decimal digits as a [Decimal.uint].  Only applied to what a
    [\d+] group captured; other units are skipped. *)
Fixpoint uintOfDigits (ds : jsstring) : Decimal.uint :=
  match ds with
  | [] => Decimal.Nil
  | c :: ds' =>
      let r := uintOfDigits ds' in
      match c - 48 with
      | 0 => if c =? 48 then Decimal.D0 r else r
      | 1 => Decimal.D1 r
      | 2 => Decimal.D2 r
      | 3 => Decimal.D3 r
      | 4 => Decimal.D4 r
      | 5 => Decimal.D5 r
      | 6 => Decimal.D6 r
      | 7 => Decimal.D7 r
      | 8 => Decimal.D8 r
      | 9 => Decimal.D9 r
      | _ => r
      end
  end.

Fixpoint digitsOfUint (d : Decimal.uint) : jsstring :=
  match d with
  | Decimal.Nil => []
  | Decimal.D0 r => 48 :: digitsOfUint r
  | Decimal.D1 r => 49 :: digitsOfUint r
  | Decimal.D2 r => 50 :: digitsOfUint r
  | Decimal.D3 r => 51 :: digitsOfUint r
  | Decimal.D4 r => 52 :: digitsOfUint r
  | Decimal.D5 r => 53 :: digitsOfUint r
  | Decimal.D6 r => 54 :: digitsOfUint r
  | Decimal.D7 r => 55 :: digitsOfUint r
  | Decimal.D8 r => 56 :: digitsOfUint r
  | Decimal.D9 r => 57 :: digitsOfUint r
  end.

Definition DOT : N := 46.

(** The mathematical value of a run of decimal digits. *)
Definition decimalValue (ds : jsstring) : N := N.of_uint (uintOfDigits ds).

(** The decimal digits of a natural number, without leading zeros. *)
Definition decimalDigits (n : N) : jsstring := digitsOfUint (N.to_uint n).

(** [Infinity], as the first power of two that is not a finite double. *)
Definition Infinity : N := 2 ^ 1024.

(** The double nearest to a natural number, ties to even: exact up to
    [2^53]; beyond, the 53 leading bits are kept and the rest rounds; a
    result of [2^1024] or more is [Infinity]. *)
Definition roundNumber (n : N) : N :=
  if n <=? 2 ^ 53 then n
  else
    let e := N.log2 n - 52 in
    let q := n / 2 ^ e in
    let r := n mod 2 ^ e in
    let half := 2 ^ (e - 1) in
    let q' := if (half <? r) || ((r =? half) && N.odd q) then q + 1 else q in
    let v := q' * 2 ^ e in
    if Infinity <=? v then Infinity else v.

(** Unary plus on a digit run, [+m[k]]: the double nearest to its value.
    (ECMAScript lets an implementation round a literal of more than 20
    significant digits less precisely; the current engines round every
    literal exactly, as here.) *)
Definition ToNumber (ds : jsstring) : N := roundNumber (decimalValue ds).

(** [x + y] on numbers: the double nearest to the sum. *)
Definition numberAdd (x y : N) : N := roundNumber (x + y).

(** Number::toString, the choice of digits: among the multiples of a power
    of ten that read back as [x], one of the largest power, the closest to
    [x] if two qualify, the one with an even count of that power on a tie.
    [j] is the exponent tried first. *)
Fixpoint shortestFrom (j : nat) (x : N) : N :=
  match j with
  | O => x
  | S j' =>
      let p := 10 ^ N.of_nat j in
      let lo := (x / p) * p in
      let hi := lo + p in
      match roundNumber lo =? x, roundNumber hi =? x with
      | true, true =>
          if x - lo <? hi - x then lo
          else if hi - x <? x - lo then hi
          else if N.even (x / p) then lo else hi
      | true, false => lo
      | false, true => hi
      | false, false => shortestFrom j' x
      end
  end.

Definition shortestDecimal (x : N) : N :=
  shortestFrom (List.length (decimalDigits x)) x.

Fixpoint dropZeros (s : jsstring) : jsstring :=
  match s with
  | c :: s' => if c =? 48 then dropZeros s' else s
  | [] => []
  end.

(** Number::toString from [1e21]: the digits [ds] of the chosen decimal
    without their trailing zeros, a dot after the first when there are
    several, then [e+] and the exponent. *)
Definition exponentForm (ds : jsstring) : jsstring :=
  let exponent := decimalDigits (N.of_nat (List.length ds - 1)) in
  match rev (dropZeros (rev ds)) with
  | [] => ds
  | [d] => d :: js "e+" ++ exponent
  | d :: more => d :: DOT :: more ++ js "e+" ++ exponent
  end.

(** A number inside a template literal, [`${n}`]. *)
Definition NumberToString (n : N) : jsstring :=
  if n =? Infinity then js "Infinity"
  else
    let v := shortestDecimal n in
    if v <? 10 ^ 21 then decimalDigits v else exponentForm (decimalDigits v).

(* ================================================================== *)
(** ** Completions *)

Inductive Error : Type :=
| TypeError       (* property read on null *)
| InputRequired   (* core.getInput: required input not supplied *)
| ExecFailure.    (* @actions/exec: the promise was rejected *)

Inductive Completion (A : Type) : Type :=
| Normal (a : A)
| Throw (e : Error)
| Pending.        (* no completion: the loop ran out of fuel, or an awaited
                     promise never settles *)

Arguments Normal {A} a.
Arguments Throw {A} e.
Arguments Pending {A}.

Definition bind {A B} (c : Completion A) (k : A -> Completion B) : Completion B :=
  match c with
  | Normal a => k a
  | Throw e => Throw e
  | Pending => Pending
  end.

Notation "x <- c ;; k" := (bind c (fun x => k))
  (at level 61, c at next level, right associativity).

(** [try { c } catch { h }] *)
Definition tryCatch {A} (c : Completion A) (h : Error -> Completion A) : Completion A :=
  match c with
  | Throw e => h e
  | _ => c
  end.

(** Reading a property of a value that may be [null] or [undefined]. *)
Definition deref {A} (o : option A) : Completion A :=
  match o with
  | Some a => Normal a
  | None => Throw TypeError
  end.

(** [!tag] for [tag : string | undefined | null]. *)
Definition falsy (tag : option jsstring) : bool :=
  match tag with
  | None => true
  | Some [] => true
  | Some (_ :: _) => false
  end.

(** [x || d] on strings. *)
Definition orElse (x : option jsstring) (d : jsstring) : jsstring :=
  match x with
  | Some (c :: s) => c :: s
  | _ => d
  end.

(** [x ?? d] *)
Definition nullish {A} (x : option A) (d : A) : A :=
  match x with
  | Some a => a
  | None => d
  end.

(* ================================================================== *)
(** ** The version resolver *)

Record Semver : Type := mkSemver { major : N; minor : N; patch : N }.

(** [SEMVER_RE = /^(\d+)\.(\d+)\.(\d+)$/] applied by [String.prototype.match]:
    [None] is [null], otherwise the three captures.  Each greedy [\d+] is
    followed by something no digit matches, so giving digits back never
    helps and the longest run is the only candidate. *)
Definition SEMVER_RE (s : jsstring) : option (jsstring * jsstring * jsstring) :=
  let (m1, r1) := spanDigits s in
  match m1, r1 with
  | _ :: _, c1 :: r1' =>
      if c1 =? DOT then
        let (m2, r2) := spanDigits r1' in
        match m2, r2 with
        | _ :: _, c2 :: r2' =>
            if c2 =? DOT then
              let (m3, r3) := spanDigits r2' in
              match m3, r3 with
              | _ :: _, [] => Some (m1, m2, m3)
              | _, _ => None
              end
            else None
        | _, _ => None
        end
      else None
  | _, _ => None
  end.

(** [parseSemver], index.ts lines 7-12. *)
Definition parseSemver (tag : option jsstring) : Completion (option Semver) :=
  if falsy tag then Normal None
  else
    t <- deref tag ;;
    let m := SEMVER_RE (trim t) in
    match m with
    | None => Normal None
    | Some _ =>
        c <- deref m ;;
        let '(m1, m2, m3) := c in
        Normal (Some {| major := ToNumber m1;
                        minor := ToNumber m2;
                        patch := ToNumber m3 |})
    end.

(** [formatSemver], index.ts lines 31-33. *)
Definition formatSemver (s : Semver) : jsstring :=
  NumberToString (major s) ++ [DOT] ++ NumberToString (minor s) ++ [DOT]
    ++ NumberToString (patch s).

Inductive UpgradeType : Type := MAJOR | MINOR | PATCH.

(** [normalizeUpgradeType], index.ts lines 26-29. *)
Definition normalizeUpgradeType (x : option jsstring) : UpgradeType :=
  let up := toUpperCase (trim (orElse x (js "PATCH"))) in
  if strictEq up (js "MAJOR") then MAJOR
  else if strictEq up (js "MINOR") then MINOR
  else PATCH.

(** The starting point when no tag parses, [{ major: 0, minor: 1, patch: 0 }]. *)
Definition defaultBase : Semver := {| major := 0; minor := 1; patch := 0 |}.

(** The main-line computation, index.ts lines 56-71 ([upgradeType] is the
    value [normalizeUpgradeType] returned on line 46). *)
Definition computeNextMainVersion (lastTag : option jsstring)
    (upgradeType : UpgradeType) : Completion Semver :=
  p <- parseSemver lastTag ;;
  let parsed := nullish p defaultBase in
  Normal
    match upgradeType with
    | MAJOR => {| major := numberAdd (major parsed) 1; minor := 0; patch := 0 |}
    | MINOR => {| major := major parsed; minor := numberAdd (minor parsed) 1;
                  patch := 0 |}
    | PATCH => {| major := major parsed; minor := minor parsed;
                  patch := numberAdd (patch parsed) 1 |}
    end.

(** [(\d+)$]: a non-empty run of digits up to the end of the input. *)
Definition digitsToEnd (s : jsstring) : option jsstring :=
  let (ds, r) := spanDigits s in
  match ds, r with
  | _ :: _, [] => Some ds
  | _, _ => None
  end.

(** The text of a number used as the source of a regular expression, as
    [devPattern] does with the three numbers of the base: a digit or a
    letter matches itself, [.] matches any unit but a line terminator, and
    [c+] matches one or more [c] (in the text of a number [+] only follows
    [e] and is followed by a digit, so the longest run of [e] is the only
    candidate).  The result is the rest of the input. *)
Fixpoint matchSource (src s : jsstring) : option jsstring :=
  match src with
  | [] => Some s
  | c :: src' =>
      match src' with
      | 43 :: src'' =>
          match s with
          | y :: s' =>
              if c =? y
              then matchSource src'' ((fix skip (t : jsstring) : jsstring :=
                                         match t with
                                         | z :: t' => if c =? z then skip t' else t
                                         | [] => []
                                         end) s')
              else None
          | [] => None
          end
      | _ =>
          match s with
          | y :: s' =>
              if c =? DOT
              then (if isLineTerminator y then None else matchSource src' s')
              else if c =? y then matchSource src' s' else None
          | [] => None
          end
      end
  end.

(** [devPattern], index.ts line 101: the regular expression built from the
    three numbers of the base, [^M\.m\.p-develop\.(\d+)$], applied by
    [match]; the capture, or [None] for [null]. *)
Definition devPattern (mainBase : Semver) (s : jsstring) : option jsstring :=
  match matchSource (NumberToString (major mainBase)) s with
  | None => None
  | Some r1 =>
  match stripPrefix [DOT] r1 with
  | None => None
  | Some r2 =>
  match matchSource (NumberToString (minor mainBase)) r2 with
  | None => None
  | Some r3 =>
  match stripPrefix [DOT] r3 with
  | None => None
  | Some r4 =>
  match matchSource (NumberToString (patch mainBase)) r4 with
  | None => None
  | Some r5 =>
  match stripPrefix (js "-develop.") r5 with
  | None => None
  | Some r6 => digitsToEnd r6
  end end end end end end.

(** The pre-release computation, index.ts lines 91-109: the base and the
    build number. *)
Definition computeNextPreReleaseVersion (lastMainTag lastDevelopTag : option jsstring)
    : Completion (Semver * N) :=
  p <- parseSemver lastMainTag ;;
  let mainBase := nullish p defaultBase in
  let m := devPattern mainBase (trim (orElse lastDevelopTag [])) in
  build <- match m with
           | Some _ => c <- deref m ;; Normal (ToNumber c)
           | None => Normal 0
           end ;;
  Normal (mainBase, numberAdd build 1).

(** [mk], index.ts line 111. *)
Definition mk (baseVersion : jsstring) (b : N) : jsstring :=
  baseVersion ++ js "-develop." ++ NumberToString b.

(** The advance function of the main line, index.ts lines 75-79. *)
Definition advancePatch (v : jsstring) : Completion jsstring :=
  m <- deref (SEMVER_RE v) ;;
  let '(m1, m2, m3) := m in
  let p := numberAdd (ToNumber m3) 1 in
  Normal (m1 ++ [DOT] ++ m2 ++ [DOT] ++ NumberToString p).

(** The continuation of the lazy [.+?] in [/^(.+?-develop\.)(\d+)$/]:
    [pre] is what [.+?] has consumed so far.  The shortest extension is
    tried first; [.] matches any unit but a line terminator. *)
Fixpoint lazyDevelop (pre s : jsstring) : option (jsstring * jsstring) :=
  match match stripPrefix (js "-develop.") s with
        | Some r => digitsToEnd r
        | None => None
        end with
  | Some ds => Some (pre ++ js "-develop.", ds)
  | None =>
      match s with
      | c :: s' => if isLineTerminator c then None else lazyDevelop (pre ++ [c]) s'
      | [] => None
      end
  end.

(** [/^(.+?-develop\.)(\d+)$/] applied by [match]: the two captures. *)
Definition BUILD_RE (s : jsstring) : option (jsstring * jsstring) :=
  match s with
  | c :: s' => if isLineTerminator c then None else lazyDevelop [c] s'
  | [] => None
  end.

(** The advance function of the pre-release line, index.ts lines 115-118. *)
Definition advanceBuild (v : jsstring) : Completion jsstring :=
  x <- deref (BUILD_RE v) ;;
  let '(x1, x2) := x in
  Normal (x1 ++ NumberToString (numberAdd (ToNumber x2) 1)).

(* ================================================================== *)
(** ** The inputs and the dispatch *)

(** The values the invoking environment supplies for the five inputs
    (the empty string when an input is not supplied). *)
Record Inputs : Type := mkInputs {
  in_baseBranch : jsstring;
  in_upgradeType : jsstring;
  in_lastTag : jsstring;
  in_lastMainTag : jsstring;
  in_lastDevelopTag : jsstring
}.

(** [core.getInput] of @actions/core: throws when a required input is not
    supplied, and returns the supplied value trimmed. *)
Definition getInput (supplied : jsstring) (required : bool) : Completion jsstring :=
  match supplied, required with
  | [], true => Throw InputRequired
  | _, _ => Normal (trim supplied)
  end.

Inductive Path : Type := MainLine | PreRelease.

(** [baseBranch === "main"], index.ts line 54. *)
Definition dispatch (baseBranch : jsstring) : Path :=
  if strictEq baseBranch (js "main") then MainLine else PreRelease.

(** The path a run takes on the value supplied for [baseBranch]:
    index.ts line 45 followed by the test of line 54. *)
Definition selectPath (supplied : jsstring) : Completion Path :=
  b <- getInput supplied true ;;
  let baseBranch := trim b in
  Normal (dispatch baseBranch).

(* ================================================================== *)
(** ** The uniqueness prober and the run *)

Section Prober.

(** [exec("git", ["rev-parse", ref], { silent: true })] of @actions/exec:
    the exit code the promise resolves to, [Throw] when it is rejected. *)
Variable exec : jsstring -> Completion Z.

(** [tagExists], index.ts lines 14-24. *)
Definition tagExists (tag : jsstring) : Completion bool :=
  exitCode <- tryCatch (c <- exec (js "refs/tags/" ++ tag) ;; Normal (Some c))
                       (fun _ => Normal None) ;;
  match exitCode with
  | None => Normal false                  (* return inside catch *)
  | Some c => Normal (c =? 0)%Z
  end.

(** [bumpForUniqueness], index.ts lines 35-41. *)
Fixpoint bumpForUniqueness (fuel : nat) (version : jsstring)
    (bumpPatch : jsstring -> Completion jsstring) : Completion jsstring :=
  match fuel with
  | O => Pending
  | S fuel' =>
      b <- tagExists version ;;
      if b then
        v <- bumpPatch version ;;
        bumpForUniqueness fuel' v bumpPatch
      else Normal version
  end.

(** index.ts lines 55-84. *)
Definition mainLine (fuel : nat) (lastTag : jsstring) (upgradeType : UpgradeType)
    : Completion jsstring :=
  next <- computeNextMainVersion (Some lastTag) upgradeType ;;
  let newVersion := formatSemver next in
  bumpForUniqueness fuel newVersion advancePatch.

(** index.ts lines 87-122. *)
Definition preReleaseLine (fuel : nat) (lastMainTag lastDevelopTag : jsstring)
    : Completion jsstring :=
  r <- computeNextPreReleaseVersion (Some lastMainTag) (Some lastDevelopTag) ;;
  let '(mainBase, build) := r in
  let baseVersion := formatSemver mainBase in
  let newVersion := mk baseVersion build in
  bumpForUniqueness fuel newVersion advanceBuild.

(** The body of the [try] block of [run], index.ts lines 45-122: the new
    version. *)
Definition runBody (fuel : nat) (i : Inputs) : Completion jsstring :=
  b <- getInput (in_baseBranch i) true ;;
  let baseBranch := trim b in
  u <- getInput (in_upgradeType i) false ;;
  let upgradeType := normalizeUpgradeType (Some u) in
  lastTag <- getInput (in_lastTag i) false ;;
  lastMainTag <- getInput (in_lastMainTag i) false ;;
  lastDevelopTag <- getInput (in_lastDevelopTag i) false ;;
  match dispatch baseBranch with
  | MainLine => mainLine fuel lastTag upgradeType
  | PreRelease => preReleaseLine fuel lastMainTag lastDevelopTag
  end.

(** What a run leaves behind. *)
Inductive RunResult : Type :=
| SetOutput (version : jsstring)   (* setOutput("version", v) and NEW_VERSION *)
| SetFailed (e : Error)            (* core.setFailed *)
| Running.                         (* still probing *)

(** [run], index.ts lines 43-126. *)
Definition run (fuel : nat) (i : Inputs) : RunResult :=
  match runBody fuel i with
  | Normal newVersion => SetOutput newVersion
  | Throw e => SetFailed e
  | Pending => Running
  end.

End Prober.

(** A tag store holding exactly [tags]: [git rev-parse] exits with 0 on the
    ref of a tag it holds and fails on any other ref, which [exec] turns
    into a rejection. *)
Definition gitRevParse (tags : list jsstring) (ref : jsstring) : Completion Z :=
  match stripPrefix (js "refs/tags/") ref with
  | Some t => if existsb (strictEq t) tags then Normal 0%Z else Throw ExecFailure
  | None => Throw ExecFailure
  end.

(** The candidate after [n] applications of [advance]: [candidate],
    [advance(candidate)], [advance(advance(candidate))], ... *)
Fixpoint iterateM (advance : jsstring -> Completion jsstring) (n : nat)
    (candidate : jsstring) : Completion jsstring :=
  match n with
  | O => Normal candidate
  | S n' => v <- advance candidate ;; iterateM advance n' v
  end.

(* ================================================================== *)
(** ** Predicates of the specification *)

(** A non-empty run of decimal digits, what [\d+] matches in full. *)
Definition isDigitRun (ds : jsstring) : bool :=
  match ds with
  | [] => false
  | _ :: _ => forallb isDigit ds
  end.

(** A digit run without a leading zero other than the literal ["0"]. *)
Definition isCanonical (ds : jsstring) : bool :=
  match ds with
  | [] => false
  | [c] => isDigit c
  | c :: _ => negb (c =? 48) && forallb isDigit ds
  end.

(** The shape ["X.Y.Z"]: three digit runs separated by dots, nothing else. *)
Definition semverShape (s : jsstring) : Prop :=
  exists m1 m2 m3,
    isDigitRun m1 = true /\ isDigitRun m2 = true /\ isDigitRun m3 = true /\
    s = m1 ++ [DOT] ++ m2 ++ [DOT] ++ m3.

(** All three components within the range where [N] is the JavaScript number. *)
Definition safeSemver (v : Semver) : Prop :=
  safeInteger (major v) /\ safeInteger (minor v) /\ safeInteger (patch v).

(** The text of a pre-release version, ["{X}.{Y}.{Z}-develop.{b}"]. *)
Definition preReleaseText (v : Semver) (b : N) : jsstring :=
  formatSemver v ++ js "-develop." ++ NumberToString b.

(** The upper-cased, trimmed text [normalizeUpgradeType] compares. *)
Definition upgradeKey (x : option jsstring) : jsstring :=
  toUpperCase (trim (orElse x (js "PATCH"))).

(** [s] is [word], a word of upper-case Basic Latin letters, up to the case
    of each letter. *)
Fixpoint caseVariant (s word : jsstring) : bool :=
  match s, word with
  | [], [] => true
  | a :: s', b :: word' => ((a =? b) || (a =? b + 32)) && caseVariant s' word'
  | _, _ => false
  end.

(** Nothing to strip at the head. *)
Definition headKept (s : jsstring) : Prop :=
  match s with
  | [] => True
  | c :: _ => isTrimUnit c = false
  end.

(** The units of a formatted version: digits and dots. *)
Definition isBaseUnit (c : N) : bool := isDigit c || (c =? DOT).

(** No line terminator in [s]: every unit is one [.] matches. *)
Definition noLineTerminator (s : jsstring) : bool :=
  forallb (fun c => negb (isLineTerminator c)) s.

(** [v] with its patch replaced by [q]. *)
Definition withPatch (v : Semver) (q : N) : Semver :=
  {| major := major v; minor := minor v; patch := q |}.

(** The order of versions: by major, then minor, then patch. *)
Definition semverLt (a b : Semver) : Prop :=
  major a < major b
  \/ (major a = major b
      /\ (minor a < minor b \/ (minor a = minor b /\ patch a < patch b))).

(** Every number a run with this fuel can reach is in the safe-integer
    range: the components of the first candidate of either path, and its
    last number advanced once per unit of fuel. *)
Definition safeRun (fuel : nat) (i : Inputs) : Prop :=
  (forall next,
      computeNextMainVersion (Some (trim (in_lastTag i)))
        (normalizeUpgradeType (Some (trim (in_upgradeType i)))) = Normal next ->
      safeSemver next /\ safeInteger (patch next + N.of_nat fuel))
  /\ (forall base build,
        computeNextPreReleaseVersion (Some (trim (in_lastMainTag i)))
          (Some (trim (in_lastDevelopTag i))) = Normal (base, build) ->
        safeSemver base /\ safeInteger (build + N.of_nat fuel)).

(* ================================================================== *)
(** ** Strings and digit runs *)

Lemma strictEq_spec (a b : jsstring) : strictEq a b = true <-> a = b.
Proof.
  revert b; induction a as [|x a IH]; intros [|y b]; simpl;
    try (split; [discriminate | congruence]); try tauto.
  rewrite andb_true_iff, N.eqb_eq, IH.
  split; [intros [-> ->]; reflexivity | intros E; inversion E; auto].
Qed.

Lemma strictEq_refl (a : jsstring) : strictEq a a = true.
Proof. apply strictEq_spec; reflexivity. Qed.

Lemma strictEq_neq (a b : jsstring) : a <> b -> strictEq a b = false.
Proof.
  intros H; destruct (strictEq a b) eqn:E; [|reflexivity].
  apply strictEq_spec in E; contradiction.
Qed.

Lemma isDigit_range (c : N) : isDigit c = true <-> 48 <= c <= 57.
Proof.
  unfold isDigit; rewrite andb_true_iff, !N.leb_le; tauto.
Qed.

Lemma isDigit_enum (c : N) :
  isDigit c = true ->
  c = 48 \/ c = 49 \/ c = 50 \/ c = 51 \/ c = 52 \/
  c = 53 \/ c = 54 \/ c = 55 \/ c = 56 \/ c = 57.
Proof. rewrite isDigit_range; lia. Qed.

Ltac digit_cases H :=
  apply isDigit_enum in H;
  repeat (destruct H as [H | H]); subst.

Lemma isDigitRun_spec (ds : jsstring) :
  isDigitRun ds = true <-> ds <> [] /\ forallb isDigit ds = true.
Proof.
  destruct ds as [|c ds]; simpl.
  - split; [discriminate | intros [H _]; congruence].
  - split; [intros H; split; [discriminate | exact H] | tauto].
Qed.

Lemma isCanonical_digitRun (ds : jsstring) :
  isCanonical ds = true -> isDigitRun ds = true.
Proof.
  destruct ds as [|c [|d ds]]; simpl; try discriminate.
  - intros ->; reflexivity.
  - rewrite andb_true_iff; tauto.
Qed.

Lemma uintOfDigits_digitsOfUint (d : Decimal.uint) :
  uintOfDigits (digitsOfUint d) = d.
Proof. induction d; simpl; congruence. Qed.

Lemma digitsOfUint_uintOfDigits (ds : jsstring) :
  forallb isDigit ds = true -> digitsOfUint (uintOfDigits ds) = ds.
Proof.
  induction ds as [|c ds IH]; simpl; [reflexivity|].
  rewrite andb_true_iff; intros [Hc Hds].
  specialize (IH Hds).
  digit_cases Hc; simpl; rewrite IH; reflexivity.
Qed.

Lemma digitsOfUint_digits (d : Decimal.uint) :
  forallb isDigit (digitsOfUint d) = true.
Proof. induction d; simpl; auto. Qed.

Lemma digitsOfUint_nil (d : Decimal.uint) :
  digitsOfUint d = [] -> d = Decimal.Nil.
Proof. destruct d; simpl; intros H; try discriminate; reflexivity. Qed.

Lemma decimalDigits_digitRun (n : N) : isDigitRun (decimalDigits n) = true.
Proof.
  apply isDigitRun_spec; split; [|apply digitsOfUint_digits].
  unfold decimalDigits; intros H; apply digitsOfUint_nil in H.
  pose proof (DecimalN.Unsigned.to_of (N.to_uint n)) as E.
  rewrite DecimalN.Unsigned.of_to, H in E.
  discriminate E.
Qed.

Lemma decimalValue_decimalDigits (n : N) : decimalValue (decimalDigits n) = n.
Proof.
  unfold decimalValue, decimalDigits.
  rewrite uintOfDigits_digitsOfUint; apply DecimalN.Unsigned.of_to.
Qed.

Lemma unorm_canonical (ds : jsstring) :
  isCanonical ds = true ->
  Decimal.unorm (uintOfDigits ds) = uintOfDigits ds.
Proof.
  destruct ds as [|c [|d ds]]; simpl; try discriminate.
  - intros Hc; digit_cases Hc; reflexivity.
  - rewrite !andb_true_iff, negb_true_iff, N.eqb_neq.
    intros (Hne & Hc & _).
    digit_cases Hc; try congruence; reflexivity.
Qed.

Lemma decimalDigits_decimalValue (ds : jsstring) :
  isCanonical ds = true -> decimalDigits (decimalValue ds) = ds.
Proof.
  intros H; unfold decimalDigits, decimalValue.
  rewrite DecimalN.Unsigned.to_of, (unorm_canonical _ H).
  apply digitsOfUint_uintOfDigits.
  apply isCanonical_digitRun, isDigitRun_spec in H; tauto.
Qed.

(* ------------------------------------------------------------------ *)
(** *** Doubles *)

Lemma two53_lt_Infinity : 2 ^ 53 < Infinity.
Proof. reflexivity. Qed.

Lemma safe_below_two53 (n : N) : safeInteger n <-> n < 2 ^ 53.
Proof.
  unfold safeInteger, MAX_SAFE_INTEGER.
  assert (0 < 2 ^ 53) by reflexivity; lia.
Qed.

Lemma safe_lt_1e21 (n : N) : safeInteger n -> n < 10 ^ 21.
Proof.
  intros H; apply safe_below_two53 in H.
  apply (N.lt_trans _ _ _ H); reflexivity.
Qed.

Lemma safe_lt_Infinity (n : N) : safeInteger n -> n < Infinity.
Proof.
  intros H; apply safe_below_two53 in H.
  apply (N.lt_trans _ _ _ H), two53_lt_Infinity.
Qed.

(** Up to [2^53] every natural number is a double. *)
Lemma roundNumber_exact (n : N) : n <= 2 ^ 53 -> roundNumber n = n.
Proof.
  intros H; unfold roundNumber.
  apply N.leb_le in H; rewrite H; reflexivity.
Qed.

(** Beyond [2^53] rounding stays at or above [2^53]. *)
Lemma roundNumber_large (n : N) : 2 ^ 53 < n -> 2 ^ 53 <= roundNumber n.
Proof.
  intros H; unfold roundNumber.
  destruct (N.leb_spec n (2 ^ 53)) as [Hle|_]; [lia|].
  cbv zeta.
  destruct (N.leb_spec Infinity
              ((if (2 ^ (N.log2 n - 52 - 1) <? n mod 2 ^ (N.log2 n - 52))
                    || (n mod 2 ^ (N.log2 n - 52) =? 2 ^ (N.log2 n - 52 - 1))
                       && N.odd (n / 2 ^ (N.log2 n - 52))
                then n / 2 ^ (N.log2 n - 52) + 1
                else n / 2 ^ (N.log2 n - 52)) * 2 ^ (N.log2 n - 52))) as [_|_].
  - apply N.lt_le_incl, two53_lt_Infinity.
  - assert (Hlog : 53 <= N.log2 n).
    { rewrite <- (N.log2_pow2 53) by lia.
      apply N.log2_le_mono; lia. }
    set (e := N.log2 n - 52) in *.
    assert (He : N.log2 n = 52 + e) by (unfold e; lia).
    assert (Hn : 2 ^ 52 * 2 ^ e <= n).
    { rewrite <- N.pow_add_r, <- He.
      apply N.log2_spec; lia. }
    assert (Hpos : 2 ^ e <> 0) by (apply N.pow_nonzero; lia).
    assert (Hq : 2 ^ 52 <= n / 2 ^ e).
    { apply N.div_le_lower_bound; [exact Hpos | lia]. }
    assert (H2 : 2 <= 2 ^ e).
    { change 2 with (2 ^ 1) at 1; apply N.pow_le_mono_r; [lia | unfold e; lia]. }
    set (q := n / 2 ^ e) in *.
    set (t := 2 ^ e) in *.
    assert (Hprod : 2 ^ 52 * 2 <= q * t) by (apply N.mul_le_mono; assumption).
    change (2 ^ 53) with (2 ^ 52 * 2).
    destruct ((2 ^ (e - 1) <? n mod t) || (n mod t =? 2 ^ (e - 1)) && N.odd q); nia.
Qed.

(** A result in the safe range was not rounded. *)
Lemma roundNumber_safe (n : N) :
  safeInteger (roundNumber n) -> roundNumber n = n.
Proof.
  intros H; apply safe_below_two53 in H.
  destruct (N.le_gt_cases n (2 ^ 53)) as [Hle|Hgt];
    [apply roundNumber_exact, Hle|].
  apply roundNumber_large in Hgt; lia.
Qed.

Lemma numberAdd_safe (x : N) : safeInteger x -> numberAdd x 1 = x + 1.
Proof.
  intros H; apply safe_below_two53 in H.
  unfold numberAdd; apply roundNumber_exact; lia.
Qed.



Lemma ToNumber_safe (ds : jsstring) :
  safeInteger (ToNumber ds) -> ToNumber ds = decimalValue ds.
Proof. apply roundNumber_safe. Qed.

(** The decimal chosen by Number::toString reads back as the number. *)
Lemma shortestFrom_reads (j : nat) (x : N) :
  shortestFrom j x = x \/ roundNumber (shortestFrom j x) = x.
Proof.
  induction j as [|j IH]; [left; reflexivity|].
  cbn [shortestFrom]; cbv zeta.
  destruct (N.eqb_spec (roundNumber (x / 10 ^ N.of_nat (S j) * 10 ^ N.of_nat (S j))) x)
    as [Hlo|_];
  destruct (N.eqb_spec (roundNumber (x / 10 ^ N.of_nat (S j) * 10 ^ N.of_nat (S j)
                                     + 10 ^ N.of_nat (S j))) x) as [Hhi|_];
    try (right; assumption); try exact IH.
  destruct (_ <? _); [right; assumption|].
  destruct (_ <? _); [right; assumption|].
  destruct (N.even _); right; assumption.
Qed.

Lemma shortestDecimal_safe (x : N) : safeInteger x -> shortestDecimal x = x.
Proof.
  intros H; unfold shortestDecimal.
  destruct (shortestFrom_reads (List.length (decimalDigits x)) x) as [E|E];
    [exact E|].
  rewrite <- (roundNumber_safe (shortestFrom (List.length (decimalDigits x)) x));
    [exact E | rewrite E; exact H].
Qed.

(** In the safe range a number prints as its decimal digits. *)
Lemma NumberToString_safe (n : N) :
  safeInteger n -> NumberToString n = decimalDigits n.
Proof.
  intros H; unfold NumberToString.
  pose proof (safe_lt_Infinity n H) as Hinf.
  destruct (N.eqb_spec n Infinity) as [E|_]; [lia|].
  rewrite (shortestDecimal_safe n H).
  apply safe_lt_1e21, N.ltb_lt in H; rewrite H; reflexivity.
Qed.

Lemma NumberToString_digitRun (n : N) :
  safeInteger n -> isDigitRun (NumberToString n) = true.
Proof.
  intros H; rewrite (NumberToString_safe n H); apply decimalDigits_digitRun.
Qed.

(** Reading back the digits of a number gives the number. *)
Lemma ToNumber_NumberToString (n : N) :
  safeInteger n -> ToNumber (NumberToString n) = n.
Proof.
  intros H; rewrite (NumberToString_safe n H).
  unfold ToNumber; rewrite decimalValue_decimalDigits.
  apply roundNumber_exact; apply safe_below_two53 in H; lia.
Qed.

(** Printing the value of a digit run gives the run back exactly when the
    run has no leading zero. *)
Lemma NumberToString_ToNumber (ds : jsstring) :
  isCanonical ds = true -> safeInteger (ToNumber ds) ->
  NumberToString (ToNumber ds) = ds.
Proof.
  intros H Hs.
  rewrite (NumberToString_safe _ Hs), (ToNumber_safe ds Hs).
  apply decimalDigits_decimalValue, H.
Qed.

(* ------------------------------------------------------------------ *)
(** *** The greedy digit group *)

Lemma spanDigits_spec (s ds r : jsstring) :
  spanDigits s = (ds, r) ->
  s = ds ++ r /\ forallb isDigit ds = true /\
  match r with [] => True | c :: _ => isDigit c = false end.
Proof.
  revert ds r; induction s as [|c s IH]; simpl; intros ds r H.
  - inversion H; subst; auto.
  - destruct (isDigit c) eqn:Hc.
    + destruct (spanDigits s) as [ds' r'] eqn:E.
      inversion H; subst.
      destruct (IH _ _ eq_refl) as (-> & Hds & Hr).
      simpl; rewrite Hc; auto.
    + inversion H; subst; simpl; rewrite Hc; auto.
Qed.

Lemma spanDigits_app (ds r : jsstring) :
  forallb isDigit ds = true ->
  match r with [] => True | c :: _ => isDigit c = false end ->
  spanDigits (ds ++ r) = (ds, r).
Proof.
  intros Hds Hr; induction ds as [|c ds IH]; simpl in *.
  - destruct r as [|c r]; [reflexivity | simpl; rewrite Hr; reflexivity].
  - apply andb_true_iff in Hds as [Hc Hds].
    rewrite Hc, (IH Hds); reflexivity.
Qed.

Lemma digitsToEnd_spec (s ds : jsstring) :
  digitsToEnd s = Some ds <-> (ds = s /\ isDigitRun s = true).
Proof.
  unfold digitsToEnd.
  destruct (spanDigits s) as [ds' r] eqn:E.
  apply spanDigits_spec in E as (-> & Hds & Hr).
  destruct ds' as [|c ds'], r as [|x r]; simpl in *.
  - split; [discriminate | intros [_ H]; discriminate].
  - rewrite Hr; split; [discriminate | intros [_ H]; discriminate].
  - rewrite app_nil_r; split.
    + intros H; inversion H; subst; auto.
    + intros [-> _]; reflexivity.
  - split; [discriminate|].
    intros [_ H]. apply andb_true_iff in H as [_ H].
    rewrite forallb_app in H; simpl in H.
    rewrite Hr in H; simpl in H.
    rewrite andb_false_r in H; discriminate.
Qed.

Lemma digitsToEnd_run (ds : jsstring) :
  isDigitRun ds = true -> digitsToEnd ds = Some ds.
Proof. intros H; apply digitsToEnd_spec; auto. Qed.

Lemma stripPrefix_app (p s : jsstring) : stripPrefix p (p ++ s) = Some s.
Proof.
  induction p as [|x p IH]; simpl; [reflexivity|].
  rewrite N.eqb_refl; exact IH.
Qed.

Lemma stripPrefix_spec (p s r : jsstring) :
  stripPrefix p s = Some r <-> s = p ++ r.
Proof.
  split; [|intros ->; apply stripPrefix_app].
  revert s; induction p as [|x p IH]; intros [|y s]; simpl;
    try discriminate; try (intros H; inversion H; reflexivity).
  destruct (N.eqb_spec x y) as [->|]; [|discriminate].
  intros H; rewrite (IH _ H); reflexivity.
Qed.

(* ------------------------------------------------------------------ *)
(** *** [SEMVER_RE] matches exactly the strings of shape ["X.Y.Z"] *)

Lemma DOT_not_digit : isDigit DOT = false.
Proof. reflexivity. Qed.

Lemma SEMVER_RE_complete (m1 m2 m3 : jsstring) :
  isDigitRun m1 = true -> isDigitRun m2 = true -> isDigitRun m3 = true ->
  SEMVER_RE (m1 ++ [DOT] ++ m2 ++ [DOT] ++ m3) = Some (m1, m2, m3).
Proof.
  intros H1 H2 H3.
  apply isDigitRun_spec in H1 as [N1 D1], H2 as [N2 D2], H3 as [N3 D3].
  unfold SEMVER_RE.
  rewrite (spanDigits_app m1 _ D1) by exact DOT_not_digit.
  destruct m1 as [|a m1]; [congruence|].
  cbn [app]; rewrite N.eqb_refl.
  rewrite (spanDigits_app m2 _ D2) by exact DOT_not_digit.
  destruct m2 as [|b m2]; [congruence|].
  cbn [app]; rewrite N.eqb_refl.
  rewrite <- (app_nil_r m3) at 1.
  rewrite (spanDigits_app m3 [] D3) by exact I.
  destruct m3 as [|c m3]; [congruence | reflexivity].
Qed.

Lemma SEMVER_RE_sound (s m1 m2 m3 : jsstring) :
  SEMVER_RE s = Some (m1, m2, m3) ->
  isDigitRun m1 = true /\ isDigitRun m2 = true /\ isDigitRun m3 = true /\
  s = m1 ++ [DOT] ++ m2 ++ [DOT] ++ m3.
Proof.
  unfold SEMVER_RE.
  destruct (spanDigits s) as [a r1] eqn:E1.
  apply spanDigits_spec in E1 as (-> & Da & _).
  destruct a as [|a0 a]; [discriminate|].
  destruct r1 as [|c1 r1]; [discriminate|].
  destruct (N.eqb_spec c1 DOT) as [->|]; [|discriminate].
  destruct (spanDigits r1) as [b r2] eqn:E2.
  apply spanDigits_spec in E2 as (-> & Db & _).
  destruct b as [|b0 b]; [discriminate|].
  destruct r2 as [|c2 r2]; [discriminate|].
  destruct (N.eqb_spec c2 DOT) as [->|]; [|discriminate].
  destruct (spanDigits r2) as [c r3] eqn:E3.
  apply spanDigits_spec in E3 as (-> & Dc & _).
  destruct c as [|c0 c]; [discriminate|].
  destruct r3 as [|x r3]; [|discriminate].
  intros H; inversion H; subst.
  rewrite app_nil_r.
  repeat split; assumption.
Qed.

Lemma SEMVER_RE_shape (s : jsstring) :
  SEMVER_RE s <> None <-> semverShape s.
Proof.
  split.
  - destruct (SEMVER_RE s) as [[[m1 m2] m3]|] eqn:E; [|congruence].
    intros _; exists m1, m2, m3; apply SEMVER_RE_sound, E.
  - intros (m1 & m2 & m3 & H1 & H2 & H3 & ->).
    rewrite SEMVER_RE_complete by assumption; discriminate.
Qed.

(* ------------------------------------------------------------------ *)
(** *** [trim] *)

Lemma trimStart_headKept (s : jsstring) : headKept (trimStart s).
Proof.
  induction s as [|c s IH]; simpl; [exact I|].
  destruct (isTrimUnit c) eqn:E; [exact IH | exact E].
Qed.

Lemma trimStart_id (s : jsstring) : headKept s -> trimStart s = s.
Proof. destruct s as [|c s]; simpl; [reflexivity | intros ->; reflexivity]. Qed.

Lemma trimStart_suffix (s : jsstring) : exists p, s = p ++ trimStart s.
Proof.
  induction s as [|c s [p IH]]; simpl; [exists []; reflexivity|].
  destruct (isTrimUnit c).
  - exists (c :: p); simpl; f_equal; exact IH.
  - exists []; reflexivity.
Qed.

Lemma headKept_app (a b : jsstring) : a <> [] -> headKept (a ++ b) -> headKept a.
Proof. destruct a; [congruence | simpl; auto]. Qed.

Lemma trimStart_keeps_last (s : jsstring) :
  headKept (rev s) -> headKept (rev (trimStart s)).
Proof.
  destruct (trimStart_suffix s) as [p E].
  destruct (trimStart s) as [|c t] eqn:Et; [intros _; exact I|].
  intros H; rewrite E, rev_app_distr in H.
  apply headKept_app in H; [exact H|].
  intros Hn; apply (f_equal (@rev N)) in Hn.
  rewrite rev_involutive in Hn; discriminate Hn.
Qed.

Lemma trim_headKept (s : jsstring) : headKept (trim s).
Proof.
  unfold trim, trimEnd.
  apply trimStart_keeps_last.
  rewrite rev_involutive; apply trimStart_headKept.
Qed.

Lemma trim_lastKept (s : jsstring) : headKept (rev (trim s)).
Proof.
  unfold trim, trimEnd.
  rewrite rev_involutive; apply trimStart_headKept.
Qed.

(** A string with nothing to strip at either end is its own trim. *)
Lemma trim_id (s : jsstring) : headKept s -> headKept (rev s) -> trim s = s.
Proof.
  intros H1 H2; unfold trim, trimEnd.
  rewrite (trimStart_id s H1), (trimStart_id _ H2).
  apply rev_involutive.
Qed.

Lemma trim_idempotent (s : jsstring) : trim (trim s) = trim s.
Proof. apply trim_id; [apply trim_headKept | apply trim_lastKept]. Qed.

(* ================================================================== *)
(** ** [parseSemver] and [formatSemver] *)

Lemma parseSemver_nonempty (c : N) (s : jsstring) :
  parseSemver (Some (c :: s)) =
  Normal match SEMVER_RE (trim (c :: s)) with
         | Some (m1, m2, m3) =>
             Some {| major := ToNumber m1; minor := ToNumber m2; patch := ToNumber m3 |}
         | None => None
         end.
Proof.
  unfold parseSemver; cbn [falsy deref bind].
  destruct (SEMVER_RE (trim (c :: s))) as [[[m1 m2] m3]|]; reflexivity.
Qed.

Lemma trim_nil : trim [] = [].
Proof. reflexivity. Qed.

Lemma semverShape_nonempty (s : jsstring) : semverShape s -> s <> [].
Proof.
  intros (m1 & m2 & m3 & H1 & _ & _ & ->).
  destruct m1; [discriminate H1 | discriminate].
Qed.

(** What [parseSemver] returns on a string, in terms of the captures. *)
Lemma parseSemver_matched (s m1 m2 m3 : jsstring) :
  isDigitRun m1 = true -> isDigitRun m2 = true -> isDigitRun m3 = true ->
  trim s = m1 ++ [DOT] ++ m2 ++ [DOT] ++ m3 ->
  parseSemver (Some s) =
  Normal (Some {| major := ToNumber m1; minor := ToNumber m2; patch := ToNumber m3 |}).
Proof.
  intros H1 H2 H3 E.
  destruct s as [|c s].
  - rewrite trim_nil in E. destruct m1; [discriminate H1 | discriminate E].
  - rewrite parseSemver_nonempty, E, SEMVER_RE_complete by assumption.
    reflexivity.
Qed.

Lemma parseSemver_unmatched (s : jsstring) :
  ~ semverShape (trim s) -> parseSemver (Some s) = Normal None.
Proof.
  intros H; destruct s as [|c s]; [reflexivity|].
  rewrite parseSemver_nonempty.
  destruct (SEMVER_RE (trim (c :: s))) as [[[m1 m2] m3]|] eqn:E; [|reflexivity].
  exfalso; apply H, SEMVER_RE_shape; congruence.
Qed.

(** [parseSemver] completes normally on every argument. *)
Lemma parseSemver_total (tag : option jsstring) :
  exists r, parseSemver tag = Normal r.
Proof.
  destruct tag as [[|c s]|]; try (eexists; reflexivity).
  rewrite parseSemver_nonempty; eexists; reflexivity.
Qed.



(** C6, as amended: for every string that, trimmed, is three canonical digit
    runs (no leading zero other than the literal ["0"]) separated by two dots,
    with components in the safe-integer range, [parseSemver] accepts it and
    [formatSemver] of the result is the trimmed string, unit for unit. *)
Theorem format_parse_roundtrip (s m1 m2 m3 : jsstring) :
  isCanonical m1 = true -> isCanonical m2 = true -> isCanonical m3 = true ->
  safeInteger (ToNumber m1) -> safeInteger (ToNumber m2) -> safeInteger (ToNumber m3) ->
  trim s = m1 ++ [DOT] ++ m2 ++ [DOT] ++ m3 ->
  exists v, parseSemver (Some s) = Normal (Some v) /\ formatSemver v = trim s.
Proof.
  intros C1 C2 C3 S1 S2 S3 E.
  eexists; split.
  - apply (parseSemver_matched s m1 m2 m3); auto using isCanonical_digitRun.
  - unfold formatSemver; cbn [major minor patch].
    rewrite (NumberToString_ToNumber m1 C1 S1), (NumberToString_ToNumber m2 C2 S2),
      (NumberToString_ToNumber m3 C3 S3).
    symmetry; exact E.
Qed.

Lemma format_parse_roundtrip_witness :
  exists v, parseSemver (Some (js " 10.0.7 ")) = Normal (Some v)
            /\ formatSemver v = trim (js " 10.0.7 ").
Proof.
  apply (format_parse_roundtrip (js " 10.0.7 ") (js "10") (js "0") (js "7"));
    solve [reflexivity | unfold safeInteger, MAX_SAFE_INTEGER; vm_compute; discriminate].
Defined.

(** C6, counterexample: ["01.2.3"] is accepted, and formatting what it parses
    to gives ["1.2.3"], which is not the input. *)
Lemma format_parse_drops_leading_zero :
  parseSemver (Some (js "01.2.3")) = Normal (Some (mkSemver 1 2 3)) /\
  formatSemver (mkSemver 1 2 3) = js "1.2.3" /\
  strictEq (formatSemver (mkSemver 1 2 3)) (trim (js "01.2.3")) = false.
Proof. repeat split; reflexivity. Qed.

(* ================================================================== *)
(** ** [normalizeUpgradeType] *)

Lemma normalizeUpgradeType_spec (x : option jsstring) :
  match normalizeUpgradeType x with
  | MAJOR => upgradeKey x = js "MAJOR"
  | MINOR => upgradeKey x = js "MINOR"
  | PATCH => upgradeKey x <> js "MAJOR" /\ upgradeKey x <> js "MINOR"
  end.
Proof.
  unfold normalizeUpgradeType; fold (upgradeKey x).
  destruct (strictEq (upgradeKey x) (js "MAJOR")) eqn:E1.
  - apply strictEq_spec, E1.
  - destruct (strictEq (upgradeKey x) (js "MINOR")) eqn:E2.
    + apply strictEq_spec, E2.
    + split; intros H; apply strictEq_spec in H; congruence.
Qed.

Lemma MAJOR_neq_MINOR : js "MAJOR" <> js "MINOR".
Proof. discriminate. Qed.

Lemma normalizeUpgradeType_by_key (x y : option jsstring) :
  upgradeKey x = upgradeKey y -> normalizeUpgradeType x = normalizeUpgradeType y.
Proof.
  unfold normalizeUpgradeType; fold (upgradeKey x) (upgradeKey y).
  intros ->; reflexivity.
Qed.

Ltac case_variants H :=
  repeat match type of H with
         | (_ && _) = true => let L := fresh "L" in apply andb_true_iff in H as [L H]
         end;
  repeat match goal with
         | L : (_ || _) = true |- _ =>
             apply orb_true_iff in L as [L | L]; apply N.eqb_eq in L; subst
         end.

Lemma normalizeUpgradeType_case_variant (s : jsstring) :
  (caseVariant s (js "MAJOR") = true -> normalizeUpgradeType (Some s) = MAJOR)
  /\ (caseVariant s (js "MINOR") = true -> normalizeUpgradeType (Some s) = MINOR).
Proof.
  split; intros H;
    destruct s as [|a [|b [|c [|d [|e [|f s]]]]]]; try discriminate H;
    cbn [caseVariant js map list_ascii_of_string] in H;
    try (repeat (apply andb_true_iff in H as [_ H]); discriminate H);
    case_variants H; reflexivity.
Qed.

(** C9: [parseSemver] completes normally on every argument (it never
    throws); it returns [null] on [null]/[undefined], on the empty string and
    on every string that, trimmed, is not of the shape ["X.Y.Z"], such as a
    string with extra characters, with a pre-release suffix or with the wrong
    number of dots.  [normalizeUpgradeType] is total as well: whatever its
    argument, the result is MAJOR or MINOR exactly when the trimmed argument
    is that word in upper case after upper-casing, and PATCH otherwise;
    arguments with the same upper case are normalized alike, so that every
    case variant of ["major"] gives MAJOR and every case variant of
    ["minor"] gives MINOR. *)
Theorem parse_and_normalize_never_fail :
  (forall tag, exists r, parseSemver tag = Normal r)
  /\ parseSemver None = Normal None
  /\ parseSemver (Some []) = Normal None
  /\ (forall s, ~ semverShape (trim s) -> parseSemver (Some s) = Normal None)
  /\ (parseSemver (Some (js "v1.2.3")) = Normal None
      /\ parseSemver (Some (js "1.2.3-develop.4")) = Normal None
      /\ parseSemver (Some (js "1.2")) = Normal None
      /\ parseSemver (Some (js "1.2.3.4")) = Normal None
      /\ parseSemver (Some (js "1..3")) = Normal None
      /\ parseSemver (Some (js "1,2,3")) = Normal None
      /\ parseSemver (Some (js "   ")) = Normal None)
  /\ (forall x,
        (normalizeUpgradeType x = MAJOR <-> upgradeKey x = js "MAJOR")
        /\ (normalizeUpgradeType x = MINOR <-> upgradeKey x = js "MINOR")
        /\ (normalizeUpgradeType x = PATCH <->
            upgradeKey x <> js "MAJOR" /\ upgradeKey x <> js "MINOR"))
  /\ (forall x y, upgradeKey x = upgradeKey y ->
                  normalizeUpgradeType x = normalizeUpgradeType y)
  /\ (forall s, (caseVariant s (js "MAJOR") = true ->
                 normalizeUpgradeType (Some s) = MAJOR)
                /\ (caseVariant s (js "MINOR") = true ->
                    normalizeUpgradeType (Some s) = MINOR))
  /\ (normalizeUpgradeType (Some (js "garbage")) = PATCH
      /\ normalizeUpgradeType (Some (js "")) = PATCH
      /\ normalizeUpgradeType None = PATCH
      /\ normalizeUpgradeType (Some (js "major")) = MAJOR
      /\ normalizeUpgradeType (Some (js " Minor ")) = MINOR
      /\ normalizeUpgradeType (Some (js "pAtCh")) = PATCH).
Proof.
  split; [exact parseSemver_total|].
  split; [reflexivity|].
  split; [reflexivity|].
  split; [exact parseSemver_unmatched|].
  split; [repeat split; reflexivity|].
  split.
  { intros x. pose proof (normalizeUpgradeType_spec x) as H.
    pose proof MAJOR_neq_MINOR as Hne.
    destruct (normalizeUpgradeType x); intuition (try congruence; try discriminate). }
  split; [exact normalizeUpgradeType_by_key|].
  split; [exact normalizeUpgradeType_case_variant|].
  repeat split; reflexivity.
Qed.

(* ================================================================== *)
(** ** The main-line computation *)

(** C1, as amended: whatever the requested kind and for every last tag
    whose components are in the safe-integer range, the main-line computation
    parses the tag, takes [{0,1,0}] when the parse is absent and applies
    exactly one rule: [{major+1,0,0}] when the kind normalizes to MAJOR,
    [{major,minor+1,0}] for MINOR, [{major,minor,patch+1}] for PATCH, which
    is what every unrecognized kind normalizes to. *)
Theorem computeNextMainVersion_rule (lastTag x : option jsstring) (p : option Semver) :
  parseSemver lastTag = Normal p ->
  safeSemver (nullish p defaultBase) ->
  let base := nullish p defaultBase in
  (upgradeKey x = js "MAJOR" ->
   computeNextMainVersion lastTag (normalizeUpgradeType x)
   = Normal {| major := major base + 1; minor := 0; patch := 0 |})
  /\ (upgradeKey x = js "MINOR" ->
      computeNextMainVersion lastTag (normalizeUpgradeType x)
      = Normal {| major := major base; minor := minor base + 1; patch := 0 |})
  /\ (upgradeKey x <> js "MAJOR" -> upgradeKey x <> js "MINOR" ->
      computeNextMainVersion lastTag (normalizeUpgradeType x)
      = Normal {| major := major base; minor := minor base;
                  patch := patch base + 1 |}).
Proof.
  intros Hp (S1 & S2 & S3) base.
  unfold computeNextMainVersion; rewrite Hp; cbn [bind].
  rewrite (numberAdd_safe _ S1), (numberAdd_safe _ S2), (numberAdd_safe _ S3).
  fold base.
  pose proof (normalizeUpgradeType_spec x) as H.
  pose proof MAJOR_neq_MINOR as Hne.
  destruct (normalizeUpgradeType x); intuition congruence.
Qed.

Ltac split_and := repeat match goal with |- _ /\ _ => split end.

Ltac safe_range :=
  unfold safeSemver, safeInteger, MAX_SAFE_INTEGER; cbn;
  repeat split; vm_compute; discriminate.

(** C1, counterexample: the patch of ["1.2.9007199254740992"] is [2^53], a
    double that absorbs [+ 1]; the PATCH rule returns the parsed version
    unchanged, not [{major,minor,patch+1}]. *)
Lemma computeNextMainVersion_patch_absorbed :
  parseSemver (Some (js "1.2.9007199254740992"))
  = Normal (Some (mkSemver 1 2 9007199254740992))
  /\ computeNextMainVersion (Some (js "1.2.9007199254740992"))
       (normalizeUpgradeType (Some (js "PATCH")))
     = Normal (mkSemver 1 2 9007199254740992).
Proof. split; vm_compute; reflexivity. Qed.

Lemma safeSemver_234 : safeSemver (mkSemver 2 3 4).
Proof. safe_range. Qed.

Lemma safeSemver_default : safeSemver defaultBase.
Proof. safe_range. Qed.

Lemma computeNextMainVersion_rule_witness :
  computeNextMainVersion (Some (js "2.3.4")) (normalizeUpgradeType (Some (js "MAJOR")))
  = Normal (mkSemver 3 0 0)
  /\ computeNextMainVersion (Some (js "2.3.4")) (normalizeUpgradeType (Some (js "MINOR")))
     = Normal (mkSemver 2 4 0)
  /\ computeNextMainVersion (Some (js "2.3.4")) (normalizeUpgradeType (Some (js "garbage")))
     = Normal (mkSemver 2 3 5)
  /\ computeNextMainVersion None (normalizeUpgradeType (Some (js "MAJOR")))
     = Normal (mkSemver 1 0 0)
  /\ computeNextMainVersion None (normalizeUpgradeType (Some (js "MINOR")))
     = Normal (mkSemver 0 2 0)
  /\ computeNextMainVersion None (normalizeUpgradeType (Some (js "PATCH")))
     = Normal (mkSemver 0 1 1).
Proof.
  pose (tagged := computeNextMainVersion_rule (Some (js "2.3.4"))).
  pose (absent := computeNextMainVersion_rule None).
  split_and.
  - exact (proj1 (tagged (Some (js "MAJOR")) _ eq_refl safeSemver_234) eq_refl).
  - exact (proj1 (proj2 (tagged (Some (js "MINOR")) _ eq_refl safeSemver_234)) eq_refl).
  - apply (proj2 (proj2 (tagged (Some (js "garbage")) _ eq_refl safeSemver_234)));
      discriminate.
  - exact (proj1 (absent (Some (js "MAJOR")) _ eq_refl safeSemver_default) eq_refl).
  - exact (proj1 (proj2 (absent (Some (js "MINOR")) _ eq_refl safeSemver_default)) eq_refl).
  - apply (proj2 (proj2 (absent (Some (js "PATCH")) _ eq_refl safeSemver_default)));
      discriminate.
Defined.

(* ================================================================== *)
(** ** The pre-release computation *)

Lemma digit_not_dot (c : N) : isDigit c = true -> (c =? DOT) = false.
Proof. intros H; digit_cases H; reflexivity. Qed.

(** The digits of a number in the safe range, used as the source of a
    regular expression, match themselves and nothing else. *)
Lemma matchSource_digits (src : jsstring) :
  forallb isDigit src = true ->
  forall s, matchSource src s = stripPrefix src s.
Proof.
  induction src as [|c src IH]; intros H s; [reflexivity|].
  cbn [forallb] in H; apply andb_true_iff in H as [Hc H].
  specialize (IH H).
  pose proof (digit_not_dot c Hc) as Hdot.
  destruct src as [|d src].
  - destruct s as [|y s]; cbn [matchSource stripPrefix]; [reflexivity|].
    rewrite Hdot; destruct (c =? y); reflexivity.
  - cbn [forallb] in H; apply andb_true_iff in H as [Hd _].
    destruct s as [|y s].
    + digit_cases Hd; reflexivity.
    + transitivity (if c =? y then matchSource (d :: src) s else None).
      * digit_cases Hd; cbn [matchSource]; rewrite Hdot; reflexivity.
      * cbn [stripPrefix]; destruct (c =? y); [apply IH | reflexivity].
Qed.

Lemma stripPrefix_app_split (a b s : jsstring) :
  stripPrefix (a ++ b) s =
  match stripPrefix a s with
  | Some r => stripPrefix b r
  | None => None
  end.
Proof.
  revert s; induction a as [|x a IH]; intros s; [reflexivity|].
  destruct s as [|y s]; cbn [app stripPrefix]; [reflexivity|].
  destruct (x =? y); [apply IH | reflexivity].
Qed.

Lemma NumberToString_digits (n : N) :
  safeInteger n -> forallb isDigit (NumberToString n) = true.
Proof.
  intros H; apply NumberToString_digitRun, isDigitRun_spec in H; tauto.
Qed.

(** For a base in the safe range [devPattern] is the text of the base and
    ["-develop."], taken literally, then digits up to the end. *)
Lemma devPattern_literal (mainBase : Semver) (t : jsstring) :
  safeSemver mainBase ->
  devPattern mainBase t =
  match stripPrefix (formatSemver mainBase ++ js "-develop.") t with
  | Some r => digitsToEnd r
  | None => None
  end.
Proof.
  intros (S1 & S2 & S3); unfold devPattern, formatSemver.
  rewrite <- !app_assoc.
  rewrite (matchSource_digits _ (NumberToString_digits _ S1)).
  rewrite (stripPrefix_app_split (NumberToString (major mainBase))).
  destruct (stripPrefix (NumberToString (major mainBase)) t) as [r1|]; [|reflexivity].
  rewrite (stripPrefix_app_split [DOT]).
  destruct (stripPrefix [DOT] r1) as [r2|]; [|reflexivity].
  rewrite (matchSource_digits _ (NumberToString_digits _ S2)).
  rewrite (stripPrefix_app_split (NumberToString (minor mainBase))).
  destruct (stripPrefix (NumberToString (minor mainBase)) r2) as [r3|]; [|reflexivity].
  rewrite (stripPrefix_app_split [DOT]).
  destruct (stripPrefix [DOT] r3) as [r4|]; [|reflexivity].
  rewrite (matchSource_digits _ (NumberToString_digits _ S3)).
  rewrite (stripPrefix_app_split (NumberToString (patch mainBase))).
  destruct (stripPrefix (NumberToString (patch mainBase)) r4) as [r5|]; reflexivity.
Qed.

Lemma devPattern_spec (mainBase : Semver) (t ds : jsstring) :
  safeSemver mainBase ->
  devPattern mainBase t = Some ds <->
  isDigitRun ds = true /\ t = formatSemver mainBase ++ js "-develop." ++ ds.
Proof.
  intros Hs; rewrite (devPattern_literal mainBase t Hs).
  rewrite (app_assoc (formatSemver mainBase)).
  set (P := formatSemver mainBase ++ js "-develop.").
  destruct (stripPrefix P t) as [r|] eqn:E.
  - apply stripPrefix_spec in E; subst t.
    rewrite digitsToEnd_spec; split.
    + intros [-> H]; auto.
    + intros [H E]; apply app_inv_head in E; subst; auto.
  - split; [discriminate|].
    intros [_ ->]; rewrite stripPrefix_app in E; discriminate E.
Qed.





(* ================================================================== *)
(** ** The uniqueness prober *)

Lemma tagExists_cases (exec : jsstring -> Completion Z) (tag : jsstring) :
  tagExists exec tag =
  match exec (js "refs/tags/" ++ tag) with
  | Normal c => Normal (c =? 0)%Z
  | Throw _ => Normal false
  | Pending => Pending
  end.
Proof.
  unfold tagExists.
  destruct (exec (js "refs/tags/" ++ tag)); reflexivity.
Qed.

Lemma tagExists_never_throws (exec : jsstring -> Completion Z) (tag : jsstring) (e : Error) :
  tagExists exec tag <> Throw e.
Proof.
  rewrite tagExists_cases.
  destruct (exec (js "refs/tags/" ++ tag)); discriminate.
Qed.

Lemma tagExists_settles (exec : jsstring -> Completion Z) (tag : jsstring) :
  (forall ref, exec ref <> Pending) -> exists b, tagExists exec tag = Normal b.
Proof.
  intros H; rewrite tagExists_cases.
  specialize (H (js "refs/tags/" ++ tag)).
  destruct (exec (js "refs/tags/" ++ tag)); try (eexists; reflexivity).
  congruence.
Qed.

(** C4: when the query of the tag store fails, that is when [exec] rejects,
    [tagExists] completes normally with [false]; the failure does not reach
    the caller. *)
Theorem tagExists_fail_open (exec : jsstring -> Completion Z) (tag : jsstring) (e : Error) :
  exec (js "refs/tags/" ++ tag) = Throw e ->
  tagExists exec tag = Normal false.
Proof. intros H; rewrite tagExists_cases, H; reflexivity. Qed.

Lemma tagExists_fail_open_witness :
  tagExists (gitRevParse []) (js "1.0.0") = Normal false.
Proof.
  apply (tagExists_fail_open (gitRevParse []) (js "1.0.0") ExecFailure).
  reflexivity.
Defined.

Lemma gitRevParse_settles (tags : list jsstring) (ref : jsstring) :
  gitRevParse tags ref <> Pending.
Proof.
  unfold gitRevParse.
  destruct (stripPrefix (js "refs/tags/") ref) as [t|]; [|discriminate].
  destruct (existsb (strictEq t) tags); discriminate.
Qed.

Lemma iterateM_pure (f : jsstring -> jsstring) (n : nat) (c : jsstring) :
  iterateM (fun v => Normal (f v)) n c = Normal (Nat.iter n f c).
Proof.
  revert c; induction n as [|n IH]; intros c; [reflexivity|].
  cbn [iterateM bind]; rewrite IH, Nat.iter_succ_r; reflexivity.
Qed.

(** The loop returns the candidate at index [n] as soon as the fuel exceeds
    [n], when every earlier candidate exists and that one does not. *)
Lemma bumpForUniqueness_at_first_free
    (exec : jsstring -> Completion Z) (advance : jsstring -> Completion jsstring) :
  forall (n : nat) (candidate v : jsstring),
    iterateM advance n candidate = Normal v ->
    tagExists exec v = Normal false ->
    (forall j u, (j < n)%nat -> iterateM advance j candidate = Normal u ->
                 tagExists exec u = Normal true) ->
    forall fuel, (n < fuel)%nat ->
      bumpForUniqueness exec fuel candidate advance = Normal v.
Proof.
  induction n as [|n IH]; intros candidate v Hit Hfree Hbusy fuel Hfuel;
    (destruct fuel as [|fuel]; [lia|]); cbn [bumpForUniqueness].
  - inversion Hit; subst. rewrite Hfree; reflexivity.
  - rewrite (Hbusy 0%nat candidate) by (lia || reflexivity).
    cbn [bind iterateM] in Hit |- *.
    destruct (advance candidate) as [c1| |] eqn:Hadv; try discriminate Hit.
    cbn [bind] in Hit |- *.
    apply IH; auto; [|lia].
    intros j u Hj Hu.
    apply (Hbusy (S j) u); [lia|].
    cbn [iterateM bind]; rewrite Hadv; exact Hu.
Qed.

(** C3: for every candidate and advance function, if some element of the
    sequence candidate, advance(candidate), advance(advance(candidate)), ...
    does not exist in the tag store (and the store answers every query), then
    the sequence has a first such element and [bumpForUniqueness] returns it,
    with any fuel beyond its index: the loop terminates with the first
    candidate for which [tagExists] is false. *)
Theorem bumpForUniqueness_first_free
    (exec : jsstring -> Completion Z) (advance : jsstring -> Completion jsstring)
    (candidate : jsstring) (n : nat) (v : jsstring) :
  (forall ref, exec ref <> Pending) ->
  iterateM advance n candidate = Normal v ->
  tagExists exec v = Normal false ->
  exists k w,
    (k <= n)%nat
    /\ iterateM advance k candidate = Normal w
    /\ tagExists exec w = Normal false
    /\ (forall j u, (j < k)%nat -> iterateM advance j candidate = Normal u ->
                    tagExists exec u = Normal true)
    /\ forall fuel, (k < fuel)%nat ->
         bumpForUniqueness exec fuel candidate advance = Normal w.
Proof.
  intros Hexec Hit Hfree.
  assert (First : exists k w,
            (k <= n)%nat
            /\ iterateM advance k candidate = Normal w
            /\ tagExists exec w = Normal false
            /\ (forall j u, (j < k)%nat -> iterateM advance j candidate = Normal u ->
                            tagExists exec u = Normal true)).
  { revert candidate Hit; induction n as [|n IH]; intros candidate Hit.
    - exists 0%nat, candidate; inversion Hit; subst.
      repeat split; auto; intros; lia.
    - destruct (tagExists_settles exec candidate Hexec) as [[|] Hb].
      + cbn [iterateM bind] in Hit.
        destruct (advance candidate) as [c1| |] eqn:Hadv; try discriminate Hit.
        destruct (IH c1 Hit) as (k & w & Hk & Hw & Hf & Hbusy).
        exists (S k), w; repeat split; [lia | | exact Hf |].
        * cbn [iterateM bind]; rewrite Hadv; exact Hw.
        * intros [|j] u Hj Hu.
          -- inversion Hu; subst; exact Hb.
          -- cbn [iterateM bind] in Hu; rewrite Hadv in Hu.
             apply (Hbusy j u); [lia | exact Hu].
      + exists 0%nat, candidate; repeat split; auto; [lia | intros; lia]. }
  destruct First as (k & w & Hk & Hw & Hf & Hbusy).
  exists k, w; repeat split; auto.
  intros fuel Hfuel.
  apply (bumpForUniqueness_at_first_free exec advance k candidate w); auto.
Qed.

Lemma bumpForUniqueness_first_free_witness :
  bumpForUniqueness (gitRevParse [js "1.2.1"; js "1.2.2"]) 3 (js "1.2.1") advancePatch
  = Normal (js "1.2.3").
Proof.
  destruct (bumpForUniqueness_first_free
              (gitRevParse [js "1.2.1"; js "1.2.2"]) advancePatch
              (js "1.2.1") 2 (js "1.2.3")
              (gitRevParse_settles _) eq_refl eq_refl)
    as (k & w & Hk & Hw & Hfree & _ & Hres).
  destruct k as [|[|[|k]]].
  - inversion Hw; subst; discriminate Hfree.
  - inversion Hw; subst; discriminate Hfree.
  - inversion Hw; subst. apply Hres; lia.
  - lia.
Defined.

(* ================================================================== *)
(** ** The dispatcher *)

Lemma getInput_optional (supplied : jsstring) :
  getInput supplied false = Normal (trim supplied).
Proof. destruct supplied; reflexivity. Qed.

Lemma getInput_required (supplied : jsstring) :
  falsy (Some supplied) = false -> getInput supplied true = Normal (trim supplied).
Proof. destruct supplied; [discriminate | reflexivity]. Qed.

Lemma dispatch_main (baseBranch : jsstring) :
  dispatch baseBranch = MainLine <-> baseBranch = js "main".
Proof.
  unfold dispatch; rewrite <- strictEq_spec.
  destruct (strictEq baseBranch (js "main")); split; congruence.
Qed.

Lemma selectPath_supplied (supplied : jsstring) :
  falsy (Some supplied) = false ->
  selectPath supplied = Normal (dispatch (trim supplied)).
Proof.
  intros H; unfold selectPath.
  rewrite (getInput_required _ H); cbn [bind].
  rewrite trim_idempotent; reflexivity.
Qed.

(** What [runBody] does once [baseBranch] is supplied. *)
Lemma runBody_supplied (exec : jsstring -> Completion Z) (fuel : nat) (i : Inputs) :
  falsy (Some (in_baseBranch i)) = false ->
  runBody exec fuel i =
  match dispatch (trim (in_baseBranch i)) with
  | MainLine =>
      mainLine exec fuel (trim (in_lastTag i))
        (normalizeUpgradeType (Some (trim (in_upgradeType i))))
  | PreRelease =>
      preReleaseLine exec fuel (trim (in_lastMainTag i)) (trim (in_lastDevelopTag i))
  end.
Proof.
  intros H; unfold runBody.
  rewrite (getInput_required _ H), !getInput_optional; cbn [bind].
  rewrite trim_idempotent; reflexivity.
Qed.

Lemma runBody_missing (exec : jsstring -> Completion Z) (fuel : nat) (i : Inputs) :
  in_baseBranch i = [] -> runBody exec fuel i = Throw InputRequired.
Proof. intros H; unfold runBody; rewrite H; reflexivity. Qed.

(** C7, as amended: for a supplied [baseBranch], the run takes the main-line
    path if and only if the value, once trimmed of surrounding white space,
    is exactly ["main"]; every other value takes the pre-release path.  The
    comparison is on code units: no case folding and no alias. *)
Theorem dispatch_on_trimmed_baseBranch
    (exec : jsstring -> Completion Z) (fuel : nat) (i : Inputs) :
  falsy (Some (in_baseBranch i)) = false ->
  (trim (in_baseBranch i) = js "main" ->
     selectPath (in_baseBranch i) = Normal MainLine
     /\ runBody exec fuel i =
        mainLine exec fuel (trim (in_lastTag i))
          (normalizeUpgradeType (Some (trim (in_upgradeType i)))))
  /\ (trim (in_baseBranch i) <> js "main" ->
        selectPath (in_baseBranch i) = Normal PreRelease
        /\ runBody exec fuel i =
           preReleaseLine exec fuel (trim (in_lastMainTag i))
             (trim (in_lastDevelopTag i))).
Proof.
  intros H.
  rewrite (selectPath_supplied _ H), (runBody_supplied exec fuel i H).
  pose proof (dispatch_main (trim (in_baseBranch i))) as D.
  destruct (dispatch (trim (in_baseBranch i))); split; intros E; split;
    try reflexivity; try tauto.
  - destruct D as [_ D]; specialize (D E); discriminate D.
  - destruct D as [_ D]; specialize (D E); discriminate D.
Qed.

Lemma dispatch_on_trimmed_baseBranch_witness :
  selectPath (js "main") = Normal MainLine
  /\ selectPath (js "develop") = Normal PreRelease
  /\ selectPath (js "Main") = Normal PreRelease
  /\ selectPath (js "MAIN") = Normal PreRelease
  /\ selectPath (js "mainline") = Normal PreRelease.
Proof.
  pose (on := fun b =>
          dispatch_on_trimmed_baseBranch (gitRevParse []) 1 (mkInputs b [] [] [] [])).
  split_and.
  - exact (proj1 (proj1 (on (js "main") eq_refl) eq_refl)).
  - apply (proj2 (on (js "develop") eq_refl)); discriminate.
  - apply (proj2 (on (js "Main") eq_refl)); discriminate.
  - apply (proj2 (on (js "MAIN") eq_refl)); discriminate.
  - apply (proj2 (on (js "mainline") eq_refl)); discriminate.
Defined.

(** C7, counterexample: the supplied value ["main "], with a trailing space,
    is not the string ["main"], and the run takes the main-line path. *)
Lemma dispatch_main_with_trailing_space :
  strictEq (js "main ") (js "main") = false /\
  selectPath (js "main ") = Normal MainLine.
Proof. split; reflexivity. Qed.

(** C8: two runs against the same tag store that agree on [baseBranch] end
    alike (same version, same failure, or both still probing) in either of
    these cases: the trimmed [baseBranch] is ["main"] and they agree on
    [upgradeType] and [lastTag], whatever [lastMainTag] and [lastDevelopTag]
    are in each; the trimmed [baseBranch] is anything else and they agree on
    [lastMainTag] and [lastDevelopTag], whatever [lastTag] and [upgradeType]
    are in each. *)
Theorem run_ignores_unused_inputs
    (exec : jsstring -> Completion Z) (fuel : nat) (i1 i2 : Inputs) :
  in_baseBranch i1 = in_baseBranch i2 ->
  (trim (in_baseBranch i1) = js "main" ->
     in_upgradeType i1 = in_upgradeType i2 ->
     in_lastTag i1 = in_lastTag i2 ->
     run exec fuel i1 = run exec fuel i2)
  /\ (trim (in_baseBranch i1) <> js "main" ->
        in_lastMainTag i1 = in_lastMainTag i2 ->
        in_lastDevelopTag i1 = in_lastDevelopTag i2 ->
        run exec fuel i1 = run exec fuel i2).
Proof.
  intros Hb.
  destruct (in_baseBranch i1) as [|c b] eqn:E1.
  - split; intros _ _ _; unfold run.
    + rewrite !runBody_missing by congruence; reflexivity.
    + rewrite !runBody_missing by congruence; reflexivity.
  - assert (S1 : falsy (Some (in_baseBranch i1)) = false) by (rewrite E1; reflexivity).
    assert (S2 : falsy (Some (in_baseBranch i2)) = false) by (rewrite <- Hb; reflexivity).
    unfold run.
    rewrite (runBody_supplied exec fuel i1 S1), (runBody_supplied exec fuel i2 S2).
    rewrite <- Hb, E1.
    pose proof (dispatch_main (trim (c :: b))) as D.
    split.
    + intros Em Hu Ht.
      apply D in Em; rewrite Em, Hu, Ht; reflexivity.
    + intros Em Hm Hd.
      destruct (dispatch (trim (c :: b))); [tauto|].
      rewrite Hm, Hd; reflexivity.
Qed.

Lemma run_ignores_unused_inputs_witness :
  run (gitRevParse [js "1.2.1"]) 4
      (mkInputs (js "main") (js "patch") (js "1.2.0") (js "9.9.9") (js "9.9.9-develop.9"))
  = run (gitRevParse [js "1.2.1"]) 4
      (mkInputs (js "main") (js "patch") (js "1.2.0") (js "") (js "0.1.0-develop.3"))
  /\ run (gitRevParse [js "1.2.1"]) 4
       (mkInputs (js "develop") (js "major") (js "7.7.7") (js "1.2.0") (js "1.2.0-develop.5"))
     = run (gitRevParse [js "1.2.1"]) 4
       (mkInputs (js "develop") (js "") (js "") (js "1.2.0") (js "1.2.0-develop.5")).
Proof.
  split.
  - apply (proj1 (run_ignores_unused_inputs (gitRevParse [js "1.2.1"]) 4
                    (mkInputs (js "main") (js "patch") (js "1.2.0") (js "9.9.9")
                       (js "9.9.9-develop.9"))
                    (mkInputs (js "main") (js "patch") (js "1.2.0") (js "")
                       (js "0.1.0-develop.3"))
                    eq_refl)); reflexivity.
  - apply (proj2 (run_ignores_unused_inputs (gitRevParse [js "1.2.1"]) 4
                    (mkInputs (js "develop") (js "major") (js "7.7.7") (js "1.2.0")
                       (js "1.2.0-develop.5"))
                    (mkInputs (js "develop") (js "") (js "") (js "1.2.0")
                       (js "1.2.0-develop.5"))
                    eq_refl)); [discriminate | reflexivity | reflexivity].
Defined.

(* ================================================================== *)
(** ** The shape of pre-release versions *)

Lemma isBaseUnit_plain (c : N) :
  isBaseUnit c = true -> (45 =? c) = false /\ isLineTerminator c = false.
Proof.
  unfold isBaseUnit, isDigit, isLineTerminator, DOT.
  rewrite orb_true_iff, andb_true_iff, !N.leb_le, N.eqb_eq.
  intros H; split.
  - apply N.eqb_neq; lia.
  - rewrite !orb_false_iff, !N.eqb_neq; lia.
Qed.

Lemma digits_are_base_units (ds : jsstring) :
  forallb isDigit ds = true -> forallb isBaseUnit ds = true.
Proof.
  induction ds as [|c ds IH]; simpl; [reflexivity|].
  rewrite !andb_true_iff; intros [Hc Hds].
  split; [unfold isBaseUnit; rewrite Hc; reflexivity | exact (IH Hds)].
Qed.

Lemma safeInteger_le (a b : N) : a <= b -> safeInteger b -> safeInteger a.
Proof. unfold safeInteger; lia. Qed.

Lemma NumberToString_base_units (n : N) :
  safeInteger n -> forallb isBaseUnit (NumberToString n) = true.
Proof. intros H; apply digits_are_base_units, NumberToString_digits, H. Qed.

Lemma formatSemver_base_units (v : Semver) :
  safeSemver v -> forallb isBaseUnit (formatSemver v) = true.
Proof.
  intros (S1 & S2 & S3); unfold formatSemver.
  rewrite !forallb_app, (NumberToString_base_units _ S1),
    (NumberToString_base_units _ S2), (NumberToString_base_units _ S3); reflexivity.
Qed.

Lemma formatSemver_nonempty (v : Semver) : safeSemver v -> formatSemver v <> [].
Proof.
  intros (S1 & _); unfold formatSemver.
  pose proof (NumberToString_digitRun (major v) S1) as H.
  destruct (NumberToString (major v)); [discriminate H | discriminate].
Qed.

Lemma lazyDevelop_eq (pre s : jsstring) :
  lazyDevelop pre s =
  match match stripPrefix (js "-develop.") s with
        | Some r => digitsToEnd r
        | None => None
        end with
  | Some ds => Some (pre ++ js "-develop.", ds)
  | None =>
      match s with
      | c :: s' => if isLineTerminator c then None else lazyDevelop (pre ++ [c]) s'
      | [] => None
      end
  end.
Proof. destruct s; reflexivity. Qed.

(** On a base made of digits and dots the lazy [.+?] stops at the first
    ["-develop."], the one right after the base. *)
Lemma lazyDevelop_base (B D : jsstring) :
  forallb isBaseUnit B = true -> isDigitRun D = true ->
  forall pre,
    lazyDevelop pre (B ++ js "-develop." ++ D) = Some (pre ++ B ++ js "-develop.", D).
Proof.
  intros HB HD; induction B as [|c B IH]; intros pre; rewrite lazyDevelop_eq.
  - cbn [app]. rewrite stripPrefix_app, (digitsToEnd_run D HD); reflexivity.
  - cbn [forallb] in HB; apply andb_true_iff in HB as [Hc HB].
    destruct (isBaseUnit_plain c Hc) as [Hdash Hlt].
    change (stripPrefix (js "-develop.") ((c :: B) ++ js "-develop." ++ D))
      with (if 45 =? c
            then stripPrefix (js "develop.") (B ++ js "-develop." ++ D) else None).
    rewrite Hdash; cbn [app]; rewrite Hlt, (IH HB).
    rewrite <- app_assoc; reflexivity.
Qed.

Lemma BUILD_RE_preRelease (v : Semver) (D : jsstring) :
  safeSemver v ->
  isDigitRun D = true ->
  BUILD_RE (formatSemver v ++ js "-develop." ++ D)
  = Some (formatSemver v ++ js "-develop.", D).
Proof.
  intros Hv HD.
  pose proof (formatSemver_base_units v Hv) as HB.
  pose proof (formatSemver_nonempty v Hv) as HN.
  destruct (formatSemver v) as [|c B]; [congruence|].
  cbn [forallb] in HB; apply andb_true_iff in HB as [Hc HB].
  destruct (isBaseUnit_plain c Hc) as [_ Hlt].
  cbn [app BUILD_RE]; rewrite Hlt.
  rewrite (lazyDevelop_base B D HB HD); reflexivity.
Qed.

(** The advance function of the pre-release line on a pre-release text. *)
Lemma advanceBuild_preRelease (v : Semver) (b : N) :
  safeSemver v -> safeInteger b ->
  advanceBuild (preReleaseText v b) = Normal (preReleaseText v (b + 1)).
Proof.
  intros Hv Hb; unfold advanceBuild, preReleaseText.
  rewrite (BUILD_RE_preRelease v _ Hv (NumberToString_digitRun b Hb)).
  cbn [deref bind].
  rewrite (ToNumber_NumberToString b Hb), (numberAdd_safe b Hb), <- app_assoc.
  reflexivity.
Qed.






(* ================================================================== *)
(** ** Formatting, then parsing *)

Lemma isDigit_not_trimmed (c : N) : isDigit c = true -> isTrimUnit c = false.
Proof. intros H; digit_cases H; reflexivity. Qed.

Lemma forallb_rev (f : N -> bool) (l : jsstring) :
  forallb f (rev l) = forallb f l.
Proof.
  induction l as [|c l IH]; [reflexivity|].
  cbn [rev forallb]; rewrite forallb_app, IH; cbn [forallb].
  rewrite andb_true_r; apply andb_comm.
Qed.

Lemma isDigitRun_headKept (a r : jsstring) :
  isDigitRun a = true -> headKept (a ++ r).
Proof.
  destruct a as [|c a]; [discriminate|].
  cbn [isDigitRun forallb app headKept]; rewrite andb_true_iff.
  intros [Hc _]; apply isDigit_not_trimmed, Hc.
Qed.

Lemma isDigitRun_rev (a : jsstring) : isDigitRun a = true -> isDigitRun (rev a) = true.
Proof.
  rewrite !isDigitRun_spec, forallb_rev; intros [Hn Hd]; split; [|exact Hd].
  intros E; apply Hn.
  rewrite <- (rev_involutive a), E; reflexivity.
Qed.

(** A string that starts and ends with a digit is its own trim. *)
Lemma trim_digit_ends (a mid b : jsstring) :
  isDigitRun a = true -> isDigitRun b = true ->
  trim (a ++ mid ++ b) = a ++ mid ++ b.
Proof.
  intros Ha Hb; apply trim_id.
  - apply isDigitRun_headKept, Ha.
  - rewrite !rev_app_distr.
    rewrite <- app_assoc.
    apply isDigitRun_headKept, isDigitRun_rev, Hb.
Qed.

Lemma trim_formatSemver (v : Semver) :
  safeSemver v -> trim (formatSemver v) = formatSemver v.
Proof.
  intros (S1 & S2 & S3); unfold formatSemver.
  replace (NumberToString (major v) ++ [DOT] ++ NumberToString (minor v) ++ [DOT]
             ++ NumberToString (patch v))
    with (NumberToString (major v) ++ ([DOT] ++ NumberToString (minor v) ++ [DOT])
            ++ NumberToString (patch v))
    by (rewrite <- !app_assoc; reflexivity).
  apply trim_digit_ends; apply NumberToString_digitRun; assumption.
Qed.

Lemma trim_preReleaseText (v : Semver) (b : N) :
  safeSemver v -> safeInteger b ->
  trim (preReleaseText v b) = preReleaseText v b.
Proof.
  intros (S1 & S2 & S3) Sb; unfold preReleaseText, formatSemver.
  rewrite <- !app_assoc.
  replace (NumberToString (major v) ++ [DOT] ++ NumberToString (minor v) ++ [DOT]
             ++ NumberToString (patch v) ++ js "-develop." ++ NumberToString b)
    with (NumberToString (major v)
            ++ ([DOT] ++ NumberToString (minor v) ++ [DOT]
                  ++ NumberToString (patch v) ++ js "-develop.")
            ++ NumberToString b)
    by (rewrite <- !app_assoc; reflexivity).
  apply trim_digit_ends; apply NumberToString_digitRun; assumption.
Qed.

Lemma parseSemver_formatSemver (v : Semver) :
  safeSemver v ->
  parseSemver (Some (formatSemver v)) = Normal (Some v).
Proof.
  intros Hv; pose proof Hv as (S1 & S2 & S3).
  rewrite (parseSemver_matched (formatSemver v)
             (NumberToString (major v)) (NumberToString (minor v))
             (NumberToString (patch v)));
    try (apply NumberToString_digitRun; assumption).
  - rewrite (ToNumber_NumberToString _ S1), (ToNumber_NumberToString _ S2),
      (ToNumber_NumberToString _ S3); destruct v; reflexivity.
  - apply trim_formatSemver, Hv.
Qed.

(** X1: a formatted version parses back to the version it was formatted
    from (components in the safe-integer range). *)
Theorem parse_format_roundtrip (v : Semver) :
  safeSemver v ->
  parseSemver (Some (formatSemver v)) = Normal (Some v).
Proof. apply parseSemver_formatSemver. Qed.

Lemma parse_format_roundtrip_witness :
  parseSemver (Some (formatSemver (mkSemver 10 0 7))) = Normal (Some (mkSemver 10 0 7)).
Proof.
  apply (parse_format_roundtrip (mkSemver 10 0 7)); safe_range.
Defined.

Lemma formatSemver_inj (v w : Semver) :
  safeSemver v -> safeSemver w -> formatSemver v = formatSemver w -> v = w.
Proof.
  intros Hv Hw E.
  pose proof (parseSemver_formatSemver v Hv) as Pv.
  rewrite E, (parseSemver_formatSemver w Hw) in Pv; congruence.
Qed.

(* ================================================================== *)
(** ** The advance function of the main line *)

Lemma semverShape_intro (m1 m2 m3 : jsstring) :
  isDigitRun m1 = true -> isDigitRun m2 = true -> isDigitRun m3 = true ->
  semverShape (m1 ++ [DOT] ++ m2 ++ [DOT] ++ m3).
Proof. intros H1 H2 H3; exists m1, m2, m3; auto. Qed.

(** X2: the main-line advance function does not trim.  On a string that is
    not of the shape ["X.Y.Z"] as it stands it throws a [TypeError]; on
    three digit runs, the third of a value that stays in the safe-integer
    range when one is added, it keeps the first two runs unit for unit,
    replaces the third by its value plus one, printed without leading zeros,
    and the result is of the shape again, so that it can be advanced once
    more. *)
Theorem advancePatch_behaviour (v : jsstring) :
  (~ semverShape v -> advancePatch v = Throw TypeError)
  /\ (forall m1 m2 m3,
        isDigitRun m1 = true -> isDigitRun m2 = true -> isDigitRun m3 = true ->
        safeInteger (ToNumber m3 + 1) ->
        v = m1 ++ [DOT] ++ m2 ++ [DOT] ++ m3 ->
        advancePatch v
        = Normal (m1 ++ [DOT] ++ m2 ++ [DOT] ++ NumberToString (ToNumber m3 + 1))
        /\ semverShape (m1 ++ [DOT] ++ m2 ++ [DOT] ++ NumberToString (ToNumber m3 + 1)))
  /\ (advancePatch (js " 1.2.3") = Throw TypeError
      /\ advancePatch (js "01.02.03") = Normal (js "01.02.4")).
Proof.
  split_and; try reflexivity.
  - intros Hn; unfold advancePatch.
    destruct (SEMVER_RE v) eqn:E; [|reflexivity].
    exfalso; apply Hn, SEMVER_RE_shape; congruence.
  - intros m1 m2 m3 H1 H2 H3 Hs ->; split.
    + unfold advancePatch; rewrite SEMVER_RE_complete by assumption.
      cbn [deref bind].
      rewrite numberAdd_safe by (apply (safeInteger_le _ _ (N.le_add_r _ _) Hs)).
      reflexivity.
    + apply semverShape_intro; auto using NumberToString_digitRun.
Qed.

Lemma advancePatch_formatSemver (v : Semver) :
  safeSemver v ->
  advancePatch (formatSemver v)
  = Normal (formatSemver {| major := major v; minor := minor v; patch := patch v + 1 |}).
Proof.
  intros (S1 & S2 & S3); unfold advancePatch, formatSemver.
  rewrite SEMVER_RE_complete by (apply NumberToString_digitRun; assumption).
  cbn [deref bind major minor patch].
  rewrite (ToNumber_NumberToString _ S3), (numberAdd_safe _ S3); reflexivity.
Qed.

(* ================================================================== *)
(** ** The advance function of the pre-release line *)

Lemma developTail_spec (s ds : jsstring) :
  match stripPrefix (js "-develop.") s with
  | Some r => digitsToEnd r
  | None => None
  end = Some ds
  <-> s = js "-develop." ++ ds /\ isDigitRun ds = true.
Proof.
  destruct (stripPrefix (js "-develop.") s) as [r|] eqn:E.
  - apply stripPrefix_spec in E; subst s.
    rewrite digitsToEnd_spec; split.
    + intros [-> H]; auto.
    + intros [E H]; apply app_inv_head in E; subst; auto.
  - split; [discriminate|].
    intros [-> _]; rewrite stripPrefix_app in E; discriminate E.
Qed.

(** Whatever the lazy group returns splits the input at a ["-develop."]
    that is followed by digits up to the end. *)
Lemma lazyDevelop_sound (s : jsstring) :
  forall pre x1 x2,
    lazyDevelop pre s = Some (x1, x2) ->
    exists mid,
      x1 = pre ++ mid ++ js "-develop." /\ s = mid ++ js "-develop." ++ x2
      /\ noLineTerminator mid = true /\ isDigitRun x2 = true.
Proof.
  induction s as [|c s IH]; intros pre x1 x2; rewrite lazyDevelop_eq.
  - cbn; discriminate.
  - destruct (match stripPrefix (js "-develop.") (c :: s) with
              | Some r => digitsToEnd r
              | None => None
              end) as [ds|] eqn:T.
    + intros H; inversion H; subst.
      apply developTail_spec in T as [E Hd].
      exists []; cbn [app]; auto.
    + destruct (isLineTerminator c) eqn:Hlt; [discriminate|].
      intros H; destruct (IH _ _ _ H) as (mid & -> & -> & Hm & Hd).
      exists (c :: mid); rewrite <- app_assoc; cbn [app noLineTerminator forallb].
      rewrite Hlt; auto.
Qed.

(** Digits up to the end of the input cannot reach back over a dot. *)
Lemma developTail_needs_no_prefix (c : N) (mid ds : jsstring) :
  match stripPrefix (js "-develop.") ((c :: mid) ++ js "-develop." ++ ds) with
  | Some r => digitsToEnd r
  | None => None
  end = None.
Proof.
  destruct (match stripPrefix (js "-develop.") ((c :: mid) ++ js "-develop." ++ ds) with
            | Some r => digitsToEnd r
            | None => None
            end) as [r|] eqn:T; [|reflexivity].
  exfalso.
  apply developTail_spec in T as [E Hr].
  apply (f_equal (skipn 9)) in E.
  assert (Hsplit : (c :: mid) ++ js "-develop." ++ ds
                   = ((c :: mid) ++ js "-develop") ++ DOT :: ds)
    by (rewrite <- app_assoc; reflexivity).
  rewrite Hsplit, skipn_app in E.
  replace (9 - List.length ((c :: mid) ++ js "-develop"))%nat with 0%nat in E
    by (rewrite length_app;
        change (List.length (js "-develop")) with 8%nat;
        cbn [List.length]; lia).
  change (skipn 9 (js "-develop." ++ r)) with r in E.
  change (skipn 0 (DOT :: ds)) with (DOT :: ds) in E.
  apply isDigitRun_spec in Hr as [_ Hr].
  rewrite <- E, forallb_app in Hr; cbn [forallb] in Hr.
  rewrite DOT_not_digit, andb_false_r in Hr; discriminate Hr.
Qed.

Lemma lazyDevelop_complete (mid ds : jsstring) :
  noLineTerminator mid = true -> isDigitRun ds = true ->
  forall pre,
    lazyDevelop pre (mid ++ js "-develop." ++ ds) = Some (pre ++ mid ++ js "-develop.", ds).
Proof.
  intros Hm Hd; induction mid as [|c mid IH]; intros pre; rewrite lazyDevelop_eq.
  - cbn [app]. rewrite stripPrefix_app, (digitsToEnd_run ds Hd); reflexivity.
  - rewrite developTail_needs_no_prefix.
    cbn [noLineTerminator forallb] in Hm; apply andb_true_iff in Hm as [Hlt Hm].
    apply negb_true_iff in Hlt.
    cbn [app]; rewrite Hlt, (IH Hm), <- app_assoc; reflexivity.
Qed.

(** X3: the pre-release advance function on any string.  When the string is
    a non-empty prefix without line terminator, then ["-develop."], then a
    run of digits up to the end whose value plus one is in the safe-integer
    range, the result is the same prefix and separator followed by the value
    of the run plus one; the digits cannot reach back
    over the dot, so the split is the only one and the lazy quantifier has no
    choice.  On every other string it throws a [TypeError]. *)
Theorem advanceBuild_behaviour (s : jsstring) :
  (forall pre ds,
      pre <> [] -> noLineTerminator pre = true -> isDigitRun ds = true ->
      safeInteger (ToNumber ds + 1) ->
      s = pre ++ js "-develop." ++ ds ->
      advanceBuild s = Normal (pre ++ js "-develop." ++ NumberToString (ToNumber ds + 1)))
  /\ ((forall pre ds,
         pre <> [] -> noLineTerminator pre = true -> isDigitRun ds = true ->
         s <> pre ++ js "-develop." ++ ds) ->
      advanceBuild s = Throw TypeError).
Proof.
  split.
  - intros [|c mid] ds Hn Hlt Hd Hs ->; [congruence|].
    cbn [noLineTerminator forallb] in Hlt; apply andb_true_iff in Hlt as [Hc Hm].
    apply negb_true_iff in Hc.
    unfold advanceBuild; cbn [app BUILD_RE]; rewrite Hc.
    rewrite (lazyDevelop_complete mid ds Hm Hd); cbn [deref bind].
    rewrite numberAdd_safe by (apply (safeInteger_le _ _ (N.le_add_r _ _) Hs)).
    rewrite <- !app_assoc; reflexivity.
  - intros Hno; unfold advanceBuild.
    destruct (BUILD_RE s) as [[x1 x2]|] eqn:E; [|reflexivity].
    exfalso; destruct s as [|c s]; [discriminate E|].
    cbn [BUILD_RE] in E.
    destruct (isLineTerminator c) eqn:Hc; [discriminate E|].
    destruct (lazyDevelop_sound _ _ _ _ E) as (mid & _ & -> & Hm & Hd).
    apply (Hno (c :: mid) x2); auto; [discriminate|].
    cbn [noLineTerminator forallb]; rewrite Hc; exact Hm.
Qed.

(* ================================================================== *)
(** ** More on the uniqueness prober *)

(** X4: [tagExists] never throws, whatever [exec] does, and answers [true]
    exactly when [exec] resolves with exit code 0: a rejection and a
    non-zero exit code both give [false]. *)
Theorem tagExists_true_iff_exit_zero (exec : jsstring -> Completion Z) (tag : jsstring) :
  (forall e, tagExists exec tag <> Throw e)
  /\ (tagExists exec tag = Normal true <-> exec (js "refs/tags/" ++ tag) = Normal 0%Z)
  /\ (tagExists exec tag = Normal false <->
      (exists e, exec (js "refs/tags/" ++ tag) = Throw e)
      \/ (exists c, c <> 0%Z /\ exec (js "refs/tags/" ++ tag) = Normal c)).
Proof.
  split; [intros e; apply tagExists_never_throws|].
  rewrite tagExists_cases.
  destruct (exec (js "refs/tags/" ++ tag)) as [c|e|].
  - destruct (Z.eqb_spec c 0) as [->|Hc]; split; split; intros H;
      try reflexivity; try discriminate H; try congruence.
    + destruct H as [[e H] | (c' & Hc' & H)]; [discriminate H | congruence].
    + right; exists c; auto.
  - split; split; intros H; try discriminate H; try reflexivity.
    left; exists e; reflexivity.
  - split; split; intros H; try discriminate H.
    destruct H as [[e H] | (c & _ & H)]; discriminate H.
Qed.

(** X5: what [bumpForUniqueness] returns is a candidate of the sequence for
    which [tagExists] is false, every candidate before it exists, and the
    number of advances is below the fuel. *)
Theorem bumpForUniqueness_returns_first_free
    (exec : jsstring -> Completion Z) (advance : jsstring -> Completion jsstring)
    (fuel : nat) (candidate v : jsstring) :
  bumpForUniqueness exec fuel candidate advance = Normal v ->
  tagExists exec v = Normal false
  /\ exists k,
       (k < fuel)%nat
       /\ iterateM advance k candidate = Normal v
       /\ forall j u, (j < k)%nat -> iterateM advance j candidate = Normal u ->
                      tagExists exec u = Normal true.
Proof.
  revert candidate; induction fuel as [|fuel IH]; intros candidate H;
    [discriminate H|].
  cbn [bumpForUniqueness] in H.
  destruct (tagExists exec candidate) as [[|]| |] eqn:Hb; cbn [bind] in H;
    try discriminate H.
  - destruct (advance candidate) as [c1| |] eqn:Hadv; cbn [bind] in H;
      try discriminate H.
    destruct (IH c1 H) as (Hfree & k & Hk & Hit & Hbusy).
    split; [exact Hfree|].
    exists (S k); split_and; [lia | cbn [iterateM bind]; rewrite Hadv; exact Hit |].
    intros [|j] u Hj Hu.
    + inversion Hu; subst; exact Hb.
    + cbn [iterateM bind] in Hu; rewrite Hadv in Hu.
      apply (Hbusy j u); [lia | exact Hu].
  - inversion H; subst; split; [exact Hb|].
    exists 0%nat; split_and; [lia | reflexivity | intros; lia].
Qed.

Lemma bumpForUniqueness_returns_first_free_witness :
  tagExists (gitRevParse [js "1.2.1"; js "1.2.2"]) (js "1.2.3") = Normal false
  /\ exists k,
       (k < 5)%nat
       /\ iterateM advancePatch k (js "1.2.1") = Normal (js "1.2.3")
       /\ forall j u, (j < k)%nat -> iterateM advancePatch j (js "1.2.1") = Normal u ->
                      tagExists (gitRevParse [js "1.2.1"; js "1.2.2"]) u = Normal true.
Proof.
  apply (bumpForUniqueness_returns_first_free
           (gitRevParse [js "1.2.1"; js "1.2.2"]) advancePatch 5 (js "1.2.1") (js "1.2.3")).
  reflexivity.
Defined.

(* ================================================================== *)
(** ** Runs against a finite tag store *)

Lemma tagExists_gitRevParse (tags : list jsstring) (v : jsstring) :
  tagExists (gitRevParse tags) v = Normal (existsb (strictEq v) tags).
Proof.
  rewrite tagExists_cases; unfold gitRevParse.
  rewrite stripPrefix_app.
  destruct (existsb (strictEq v) tags); reflexivity.
Qed.

Lemma existsb_strictEq_In (v : jsstring) (tags : list jsstring) :
  existsb (strictEq v) tags = true <-> In v tags.
Proof.
  rewrite existsb_exists; split.
  - intros (t & Ht & E); apply strictEq_spec in E; subst; exact Ht.
  - intros H; exists v; split; [exact H | apply strictEq_refl].
Qed.

(** The least index at which a boolean sequence is false, below a known one. *)
Lemma first_false_below (n : nat) :
  forall busy : nat -> bool,
    busy n = false ->
    exists k, (k <= n)%nat /\ busy k = false /\ forall j, (j < k)%nat -> busy j = true.
Proof.
  induction n as [|n IH]; intros busy Hn.
  - exists 0%nat; split_and; [lia | exact Hn | intros; lia].
  - destruct (busy 0%nat) eqn:H0.
    + destruct (IH (fun j => busy (S j)) Hn) as (k & Hk & Hf & Hb).
      exists (S k); split_and; [lia | exact Hf |].
      intros [|j] Hj; [exact H0 | apply Hb; lia].
    + exists 0%nat; split_and; [lia | exact H0 | intros; lia].
Qed.

Lemma false_or_all_true (busy : nat -> bool) (n : nat) :
  (exists k, (k <= n)%nat /\ busy k = false) \/ (forall k, (k <= n)%nat -> busy k = true).
Proof.
  induction n as [|n [(k & Hk & Hf) | Hall]].
  - destruct (busy 0%nat) eqn:H0.
    + right; intros k Hk; replace k with 0%nat by lia; exact H0.
    + left; exists 0%nat; auto.
  - left; exists k; split; [lia | exact Hf].
  - destruct (busy (S n)) eqn:Hs.
    + right; intros k Hk.
      destruct (Nat.eq_dec k (S n)) as [->|]; [exact Hs | apply Hall; lia].
    + left; exists (S n); auto.
Qed.

(** Among [length tags + 1] distinct candidates one is not in [tags]. *)
Lemma some_candidate_free (tags : list jsstring) (c : nat -> jsstring) :
  (forall j k, (j <= List.length tags)%nat -> (k <= List.length tags)%nat ->
               c j = c k -> j = k) ->
  exists n, (n <= List.length tags)%nat /\ existsb (strictEq (c n)) tags = false.
Proof.
  intros Hinj.
  destruct (false_or_all_true (fun k => existsb (strictEq (c k)) tags) (List.length tags))
    as [(k & Hk & Hf) | Hall]; [exists k; auto|].
  exfalso.
  assert (Hnd : NoDup (map c (seq 0 (S (List.length tags))))).
  { apply Finite.Injective_map_NoDup_in; [|apply seq_NoDup].
    intros j k Hj Hk; apply in_seq in Hj, Hk; apply Hinj; lia. }
  assert (Hincl : incl (map c (seq 0 (S (List.length tags)))) tags).
  { intros t Ht; apply in_map_iff in Ht as (k & <- & Hk).
    apply in_seq in Hk; apply existsb_strictEq_In, Hall; lia. }
  pose proof (NoDup_incl_length Hnd Hincl) as Hlen.
  rewrite length_map, length_seq in Hlen; lia.
Qed.

(** Against a finite store, a sequence of distinct candidates is left after
    at most [length tags] advances, at a candidate the store does not hold. *)
Lemma bumpForUniqueness_finite_store
    (tags : list jsstring) (advance : jsstring -> Completion jsstring)
    (c : nat -> jsstring) :
  (forall k, (k <= List.length tags)%nat ->
             iterateM advance k (c 0%nat) = Normal (c k)) ->
  (forall j k, (j <= List.length tags)%nat -> (k <= List.length tags)%nat ->
               c j = c k -> j = k) ->
  exists k,
    (k <= List.length tags)%nat
    /\ bumpForUniqueness (gitRevParse tags) (S (List.length tags)) (c 0%nat) advance
       = Normal (c k)
    /\ existsb (strictEq (c k)) tags = false.
Proof.
  intros Hit Hinj.
  destruct (some_candidate_free tags c Hinj) as (n & Hn & Hfree).
  destruct (first_false_below n (fun k => existsb (strictEq (c k)) tags) Hfree)
    as (k & Hk & Hf & Hb).
  exists k; split_and; [lia | | exact Hf].
  apply (bumpForUniqueness_at_first_free (gitRevParse tags) advance k);
    [apply Hit; lia | | | lia].
  - rewrite tagExists_gitRevParse, Hf; reflexivity.
  - intros j u Hj Hu. rewrite Hit in Hu by lia; inversion Hu; subst.
    rewrite tagExists_gitRevParse, (Hb j Hj); reflexivity.
Qed.

Lemma preReleaseText_inj (v : Semver) (a b : N) :
  safeInteger a -> safeInteger b ->
  preReleaseText v a = preReleaseText v b -> a = b.
Proof.
  unfold preReleaseText; intros Ha Hb E.
  apply app_inv_head, app_inv_head in E.
  apply (f_equal ToNumber) in E.
  rewrite (ToNumber_NumberToString a Ha), (ToNumber_NumberToString b Hb) in E.
  exact E.
Qed.

Lemma iterateM_advanceBuild (v : Semver) (k : nat) :
  safeSemver v ->
  forall b, safeInteger (b + N.of_nat k) ->
            iterateM advanceBuild k (preReleaseText v b)
            = Normal (preReleaseText v (b + N.of_nat k)).
Proof.
  intros Hv; induction k as [|k IH]; intros b Hs.
  - cbn [iterateM]; rewrite N.add_0_r; reflexivity.
  - cbn [iterateM].
    rewrite (advanceBuild_preRelease v b Hv)
      by (apply (safeInteger_le _ _ (N.le_add_r _ _) Hs)).
    cbn [bind].
    rewrite IH by (apply (safeInteger_le _ (b + N.of_nat (S k))); [lia | exact Hs]).
    do 2 f_equal; lia.
Qed.

Lemma withPatch_same (v : Semver) : withPatch v (patch v) = v.
Proof. destruct v; reflexivity. Qed.

Lemma safeSemver_withPatch (v : Semver) (q : N) :
  safeSemver v -> safeInteger q -> safeSemver (withPatch v q).
Proof. intros (S1 & S2 & _) Hq; repeat split; assumption. Qed.

Lemma advancePatch_withPatch (v : Semver) (q : N) :
  safeSemver v -> safeInteger q ->
  advancePatch (formatSemver (withPatch v q))
  = Normal (formatSemver (withPatch v (q + 1))).
Proof.
  intros Hv Hq.
  rewrite (advancePatch_formatSemver _ (safeSemver_withPatch v q Hv Hq)).
  reflexivity.
Qed.

Lemma iterateM_advancePatch (v : Semver) (k : nat) :
  safeSemver v ->
  forall q, safeInteger (q + N.of_nat k) ->
            iterateM advancePatch k (formatSemver (withPatch v q))
            = Normal (formatSemver (withPatch v (q + N.of_nat k))).
Proof.
  intros Hv; induction k as [|k IH]; intros q Hs.
  - cbn [iterateM]; rewrite N.add_0_r; reflexivity.
  - cbn [iterateM].
    rewrite (advancePatch_withPatch v q Hv)
      by (apply (safeInteger_le _ _ (N.le_add_r _ _) Hs)).
    cbn [bind].
    rewrite IH by (apply (safeInteger_le _ (q + N.of_nat (S k))); [lia | exact Hs]).
    do 3 f_equal; lia.
Qed.

Lemma computeNextMainVersion_total (lastTag : option jsstring) (k : UpgradeType) :
  exists next, computeNextMainVersion lastTag k = Normal next.
Proof.
  unfold computeNextMainVersion.
  destruct (parseSemver_total lastTag) as [p ->]; cbn [bind]; eexists; reflexivity.
Qed.

Lemma computeNextPreReleaseVersion_total (lastMainTag lastDevelopTag : option jsstring) :
  exists base build,
    computeNextPreReleaseVersion lastMainTag lastDevelopTag = Normal (base, build).
Proof.
  unfold computeNextPreReleaseVersion.
  destruct (parseSemver_total lastMainTag) as [p ->]; cbn [bind].
  destruct (devPattern _ _); cbn [deref bind]; do 2 eexists; reflexivity.
Qed.

(** X7: against a finite tag store and with [baseBranch] supplied, a run
    whose numbers stay in the safe-integer range for [length tags] advances
    ends after at most [length tags + 1] probes, and it ends with a version
    that the store does not hold: the search of [bumpForUniqueness]
    terminates and the emitted version is new. *)
Theorem run_finite_store_emits_new_version (tags : list jsstring) (i : Inputs) :
  falsy (Some (in_baseBranch i)) = false ->
  safeRun (List.length tags) i ->
  exists v,
    run (gitRevParse tags) (S (List.length tags)) i = SetOutput v
    /\ existsb (strictEq v) tags = false.
Proof.
  intros Hb [Hmain Hpre].
  unfold run; rewrite (runBody_supplied _ _ _ Hb).
  destruct (dispatch (trim (in_baseBranch i))).
  - unfold mainLine.
    destruct (computeNextMainVersion_total (Some (trim (in_lastTag i)))
                (normalizeUpgradeType (Some (trim (in_upgradeType i))))) as [next Hn].
    destruct (Hmain next Hn) as [Hnext Hbound].
    rewrite Hn; cbn [bind].
    assert (Hk : forall k, (k <= List.length tags)%nat ->
                           safeInteger (patch next + N.of_nat k)).
    { intros k Hk.
      apply (safeInteger_le _ (patch next + N.of_nat (List.length tags)));
        [lia | exact Hbound]. }
    destruct (bumpForUniqueness_finite_store tags advancePatch
                (fun k => formatSemver (withPatch next (patch next + N.of_nat k))))
      as (k & _ & Hrun & Hfree).
    + intros k Hle; cbn beta.
      rewrite (iterateM_advancePatch next k Hnext)
        by (rewrite N.add_0_r; apply Hk, Hle).
      do 3 f_equal; lia.
    + intros j k Hj Hle E.
      apply formatSemver_inj in E;
        try (apply safeSemver_withPatch; [exact Hnext | apply Hk; assumption]).
      inversion E; lia.
    + cbn beta in Hrun; rewrite N.add_0_r, withPatch_same in Hrun.
      rewrite Hrun; eexists; split; [reflexivity | exact Hfree].
  - unfold preReleaseLine.
    destruct (computeNextPreReleaseVersion_total (Some (trim (in_lastMainTag i)))
                (Some (trim (in_lastDevelopTag i)))) as (base & build & Hc).
    destruct (Hpre base build Hc) as [Hbase Hbound].
    rewrite Hc; cbn [bind].
    change (mk (formatSemver base) build) with (preReleaseText base build).
    assert (Hk : forall k, (k <= List.length tags)%nat ->
                           safeInteger (build + N.of_nat k)).
    { intros k Hk.
      apply (safeInteger_le _ (build + N.of_nat (List.length tags)));
        [lia | exact Hbound]. }
    destruct (bumpForUniqueness_finite_store tags advanceBuild
                (fun k => preReleaseText base (build + N.of_nat k)))
      as (k & _ & Hrun & Hfree).
    + intros k Hle; cbn beta.
      rewrite (iterateM_advanceBuild base k Hbase)
        by (rewrite N.add_0_r; apply Hk, Hle).
      do 2 f_equal; lia.
    + intros j k Hj Hle E.
      apply preReleaseText_inj in E; try (apply Hk; assumption); lia.
    + cbn beta in Hrun; rewrite N.add_0_r in Hrun.
      rewrite Hrun; eexists; split; [reflexivity | exact Hfree].
Qed.

Ltac safe_run :=
  split;
  [ intros next Hnext; vm_compute in Hnext; inversion Hnext; subst; safe_range
  | intros base build Hpre; vm_compute in Hpre; inversion Hpre; subst; safe_range ].

Lemma run_finite_store_emits_new_version_witness :
  exists v,
    run (gitRevParse [js "1.2.1"; js "1.2.2"; js "0.9.0"]) 4
        (mkInputs (js "main") (js "patch") (js "1.2.0") (js "") (js ""))
    = SetOutput v
    /\ existsb (strictEq v) [js "1.2.1"; js "1.2.2"; js "0.9.0"] = false.
Proof.
  apply (run_finite_store_emits_new_version
           [js "1.2.1"; js "1.2.2"; js "0.9.0"]
           (mkInputs (js "main") (js "patch") (js "1.2.0") (js "") (js ""))).
  - reflexivity.
  - safe_run.
Defined.

(* ================================================================== *)
(** ** The main line, whatever the store answers *)

(** The loop started on a formatted version returns a formatted version
    that differs at most by a larger patch. *)
Lemma bumpForUniqueness_main (exec : jsstring -> Completion Z) (v : Semver) :
  safeSemver v ->
  forall (fuel : nat) (q : N) (w : jsstring),
    safeInteger (q + N.of_nat fuel) ->
    bumpForUniqueness exec fuel (formatSemver (withPatch v q)) advancePatch = Normal w ->
    exists q', q <= q' /\ q' <= q + N.of_nat fuel /\ w = formatSemver (withPatch v q').
Proof.
  intros Hv.
  induction fuel as [|fuel IH]; intros q w Hs H; [discriminate H|].
  cbn [bumpForUniqueness] in H.
  destruct (tagExists exec (formatSemver (withPatch v q))) as [[|]| |];
    cbn [bind] in H; try discriminate H.
  - rewrite (advancePatch_withPatch v q Hv) in H
      by (apply (safeInteger_le _ _ (N.le_add_r _ _) Hs)).
    cbn [bind] in H.
    destruct (IH (q + 1) w) as (q' & Hle & Hub & ->);
      [apply (safeInteger_le _ (q + N.of_nat (S fuel))); [lia | exact Hs] | exact H |].
    exists q'; split_and; [lia | lia | reflexivity].
  - inversion H; subst. exists q; split_and; [lia | lia | reflexivity].
Qed.

Lemma numberAdd_result_safe (x : N) :
  safeInteger (numberAdd x 1) -> numberAdd x 1 = x + 1.
Proof. apply roundNumber_safe. Qed.

Lemma computeNextMainVersion_increases
    (lastTag : option jsstring) (k : UpgradeType) (p : option Semver) (next : Semver) :
  parseSemver lastTag = Normal p ->
  computeNextMainVersion lastTag k = Normal next ->
  safeSemver next ->
  semverLt (nullish p defaultBase) next.
Proof.
  intros Hp; unfold computeNextMainVersion; rewrite Hp; cbn [bind].
  intros H; injection H as <-.
  unfold semverLt; destruct k; intros (S1 & S2 & S3); cbn [major minor patch] in *.
  - rewrite (numberAdd_result_safe _ S1); lia.
  - rewrite (numberAdd_result_safe _ S2); lia.
  - rewrite (numberAdd_result_safe _ S3); lia.
Qed.

(** X8: on the main line, whatever the tag store answers, a version the run
    emits is the computed next version with its patch possibly advanced:
    major and minor are those of the rule that applied, the patch is at
    least the computed one, and the version is strictly greater, in the
    order major, minor, patch, than the one the last tag parsed to (or than
    [{0,1,0}] when it did not parse).  Stated for runs whose numbers stay
    in the safe-integer range. *)
Theorem main_version_shape
    (exec : jsstring -> Completion Z) (fuel : nat) (i : Inputs)
    (p : option Semver) (next : Semver) (v : jsstring) :
  trim (in_baseBranch i) = js "main" ->
  parseSemver (Some (trim (in_lastTag i))) = Normal p ->
  computeNextMainVersion (Some (trim (in_lastTag i)))
    (normalizeUpgradeType (Some (trim (in_upgradeType i)))) = Normal next ->
  safeRun fuel i ->
  run exec fuel i = SetOutput v ->
  exists q,
    patch next <= q
    /\ v = formatSemver (withPatch next q)
    /\ semverLt (nullish p defaultBase) (withPatch next q).
Proof.
  intros Hb Hp Hnext [Hmain _] Hrun.
  destruct (Hmain next Hnext) as [Hsafe Hbound].
  assert (Hs : falsy (Some (in_baseBranch i)) = false).
  { destruct (in_baseBranch i); [discriminate Hb | reflexivity]. }
  unfold run in Hrun; rewrite (runBody_supplied _ _ _ Hs) in Hrun.
  apply dispatch_main in Hb; rewrite Hb in Hrun.
  unfold mainLine in Hrun; rewrite Hnext in Hrun; cbn [bind] in Hrun.
  rewrite <- (withPatch_same next) in Hrun at 1.
  destruct (bumpForUniqueness exec fuel (formatSemver (withPatch next (patch next)))
              advancePatch) as [w| |] eqn:Hloop; try discriminate Hrun.
  inversion Hrun; subst w.
  destruct (bumpForUniqueness_main exec next Hsafe _ _ _ Hbound Hloop)
    as (q & Hle & _ & ->).
  exists q; split_and; [exact Hle | reflexivity |].
  pose proof (computeNextMainVersion_increases _ _ _ _ Hp Hnext Hsafe) as Hlt.
  unfold semverLt in *; cbn [withPatch major minor patch]; lia.
Qed.

Lemma main_version_shape_witness :
  exists q,
    5 <= q
    /\ js "2.3.6" = formatSemver (withPatch (mkSemver 2 3 5) q)
    /\ semverLt (mkSemver 2 3 4) (withPatch (mkSemver 2 3 5) q).
Proof.
  apply (main_version_shape (gitRevParse [js "2.3.5"]) 4
           (mkInputs (js "main") (js "garbage") (js "2.3.4") (js "") (js ""))
           (Some (mkSemver 2 3 4)) (mkSemver 2 3 5) (js "2.3.6"));
    try reflexivity.
  safe_run.
Defined.

(* ================================================================== *)
(** ** Failures of a run *)

Lemma bumpForUniqueness_main_no_throw (exec : jsstring -> Completion Z) (v : Semver) :
  safeSemver v ->
  forall (fuel : nat) (q : N) (e : Error),
    safeInteger (q + N.of_nat fuel) ->
    bumpForUniqueness exec fuel (formatSemver (withPatch v q)) advancePatch <> Throw e.
Proof.
  intros Hv.
  induction fuel as [|fuel IH]; intros q e Hs; [discriminate|].
  cbn [bumpForUniqueness].
  pose proof (tagExists_never_throws exec (formatSemver (withPatch v q))) as Hn.
  destruct (tagExists exec (formatSemver (withPatch v q))) as [[|]|e'|];
    cbn [bind]; try discriminate.
  - rewrite (advancePatch_withPatch v q Hv)
      by (apply (safeInteger_le _ _ (N.le_add_r _ _) Hs)).
    cbn [bind].
    apply (IH (q + 1)).
    apply (safeInteger_le _ (q + N.of_nat (S fuel))); [lia | exact Hs].
  - exfalso; exact (Hn e' eq_refl).
Qed.

Lemma bumpForUniqueness_preRelease_no_throw (exec : jsstring -> Completion Z) (v : Semver) :
  safeSemver v ->
  forall (fuel : nat) (b : N) (e : Error),
    safeInteger (b + N.of_nat fuel) ->
    bumpForUniqueness exec fuel (preReleaseText v b) advanceBuild <> Throw e.
Proof.
  intros Hv.
  induction fuel as [|fuel IH]; intros b e Hs; [discriminate|].
  cbn [bumpForUniqueness].
  pose proof (tagExists_never_throws exec (preReleaseText v b)) as Hn.
  destruct (tagExists exec (preReleaseText v b)) as [[|]|e'|];
    cbn [bind]; try discriminate.
  - rewrite (advanceBuild_preRelease v b Hv)
      by (apply (safeInteger_le _ _ (N.le_add_r _ _) Hs)).
    cbn [bind]; apply IH.
    apply (safeInteger_le _ (b + N.of_nat (S fuel))); [lia | exact Hs].
  - exfalso; exact (Hn e' eq_refl).
Qed.

(** X9: a run whose numbers stay in the safe-integer range fails for one
    reason only, the required input [baseBranch] not being supplied.  With
    [baseBranch] supplied nothing in the [try] block throws, whatever the tag
    store answers: the tags parse or fall back, [tagExists] swallows the
    failures of the store, and every candidate handed to an advance function
    matches its regular expression, so that the reads on a null match do not
    happen.  (Outside the range a number can print in exponent form, which
    the regular expressions refuse.) *)
Theorem run_fails_only_without_baseBranch
    (exec : jsstring -> Completion Z) (fuel : nat) (i : Inputs) (e : Error) :
  safeRun fuel i ->
  (run exec fuel i = SetFailed e <-> in_baseBranch i = [] /\ e = InputRequired).
Proof.
  intros [Hmain Hpre]; split.
  - intros H; destruct (in_baseBranch i) as [|c b] eqn:Eb.
    + unfold run in H; rewrite runBody_missing in H by exact Eb.
      inversion H; auto.
    + exfalso; unfold run in H.
      rewrite runBody_supplied in H by (rewrite Eb; reflexivity).
      destruct (dispatch (trim (in_baseBranch i))).
      * unfold mainLine in H.
        destruct (computeNextMainVersion_total (Some (trim (in_lastTag i)))
                    (normalizeUpgradeType (Some (trim (in_upgradeType i)))))
          as [next Hn].
        destruct (Hmain next Hn) as [Hsafe Hbound].
        rewrite Hn in H; cbn [bind] in H.
        rewrite <- (withPatch_same next) in H.
        pose proof (fun e => bumpForUniqueness_main_no_throw exec next Hsafe fuel
                               (patch next) e Hbound) as Hno.
        destruct (bumpForUniqueness exec fuel _ advancePatch) as [w|e'|];
          try discriminate H.
        exact (Hno e' eq_refl).
      * unfold preReleaseLine in H.
        destruct (computeNextPreReleaseVersion_total (Some (trim (in_lastMainTag i)))
                    (Some (trim (in_lastDevelopTag i)))) as (base & build & Hc).
        destruct (Hpre base build Hc) as [Hsafe Hbound].
        rewrite Hc in H; cbn [bind] in H.
        change (mk (formatSemver base) build) with (preReleaseText base build) in H.
        pose proof (fun e => bumpForUniqueness_preRelease_no_throw exec base Hsafe fuel
                               build e Hbound) as Hno.
        destruct (bumpForUniqueness exec fuel _ advanceBuild) as [w|e'|];
          try discriminate H.
        exact (Hno e' eq_refl).
  - intros [Eb ->]; unfold run; rewrite runBody_missing by exact Eb; reflexivity.
Qed.

Lemma run_fails_only_without_baseBranch_witness :
  run (gitRevParse []) 3 (mkInputs (js "") (js "major") (js "1.2.3") (js "") (js ""))
  = SetFailed InputRequired.
Proof.
  apply (run_fails_only_without_baseBranch (gitRevParse []) 3
           (mkInputs (js "") (js "major") (js "1.2.3") (js "") (js "")) InputRequired).
  - safe_run.
  - split; reflexivity.
Defined.

(* ================================================================== *)
(** ** White space around the inputs *)

Lemma parseSemver_some (s : jsstring) :
  parseSemver (Some s) =
  Normal match SEMVER_RE (trim s) with
         | Some (m1, m2, m3) =>
             Some {| major := ToNumber m1; minor := ToNumber m2; patch := ToNumber m3 |}
         | None => None
         end.
Proof. destruct s as [|c s]; [reflexivity | apply parseSemver_nonempty]. Qed.

Lemma parseSemver_trim (s : jsstring) :
  parseSemver (Some (trim s)) = parseSemver (Some s).
Proof. rewrite !parseSemver_some, trim_idempotent; reflexivity. Qed.

Lemma orElse_empty (s : jsstring) : orElse (Some s) [] = s.
Proof. destruct s; reflexivity. Qed.

Lemma upgradeKey_trim (s : jsstring) :
  normalizeUpgradeType (Some (trim s)) = normalizeUpgradeType (Some s).
Proof.
  destruct (trim s) as [|c r] eqn:E.
  - destruct s as [|d s]; [reflexivity|].
    unfold normalizeUpgradeType; cbn [orElse]; rewrite E; reflexivity.
  - destruct s as [|d s]; [discriminate E|].
    unfold normalizeUpgradeType; cbn [orElse].
    rewrite <- E, trim_idempotent; reflexivity.
Qed.

(** X10: white space around a tag or a kind never matters.  [parseSemver],
    [normalizeUpgradeType] and the two version computations give the same
    result on a string and on its trim, and a string of white space only is
    treated as the empty string: no version, and PATCH. *)
Theorem surrounding_white_space_ignored (s t : jsstring) (k : UpgradeType) :
  parseSemver (Some (trim s)) = parseSemver (Some s)
  /\ normalizeUpgradeType (Some (trim s)) = normalizeUpgradeType (Some s)
  /\ computeNextMainVersion (Some (trim s)) k = computeNextMainVersion (Some s) k
  /\ computeNextPreReleaseVersion (Some (trim s)) (Some (trim t))
     = computeNextPreReleaseVersion (Some s) (Some t)
  /\ (trim s = [] ->
      parseSemver (Some s) = Normal None /\ normalizeUpgradeType (Some s) = PATCH).
Proof.
  split_and.
  - apply parseSemver_trim.
  - apply upgradeKey_trim.
  - unfold computeNextMainVersion; rewrite parseSemver_trim; reflexivity.
  - unfold computeNextPreReleaseVersion.
    rewrite parseSemver_trim, !orElse_empty, trim_idempotent; reflexivity.
  - intros E; split.
    + rewrite parseSemver_some, E; reflexivity.
    + rewrite <- upgradeKey_trim, E; reflexivity.
Qed.

(* ================================================================== *)
(** ** Feeding a run its own output *)





(** X12: runs chain.  On the pre-release line, the version emitted for a
    base, given back as [lastDevelopTag] with a stable tag that parses to
    the same base, yields the same base and the next build.  On the main
    line, the version emitted, given back as [lastTag], is the base of the
    next computation: a PATCH run after it advances its patch by one.
    Stated for versions and builds that stay in the safe-integer range when
    one is added. *)
Theorem emitted_version_chains
    (lastMainTag : option jsstring) (p : option Semver) (b : N) (v : Semver) :
  parseSemver lastMainTag = Normal p ->
  safeSemver (nullish p defaultBase) -> safeInteger (b + 1) ->
  safeSemver v -> safeInteger (patch v + 1) ->
  computeNextPreReleaseVersion lastMainTag
    (Some (preReleaseText (nullish p defaultBase) b))
  = Normal (nullish p defaultBase, b + 1)
  /\ computeNextMainVersion (Some (formatSemver v)) PATCH
     = Normal (withPatch v (patch v + 1)).
Proof.
  intros Hp Hbase Hb1 Hv Hp1; split.
  - assert (Hb : safeInteger b) by (apply (safeInteger_le _ _ (N.le_add_r _ _) Hb1)).
    unfold computeNextPreReleaseVersion; rewrite Hp; cbn [bind].
    rewrite orElse_empty, (trim_preReleaseText _ b Hbase Hb).
    assert (M : devPattern (nullish p defaultBase)
                  (preReleaseText (nullish p defaultBase) b)
                = Some (NumberToString b)).
    { apply (devPattern_spec _ _ _ Hbase); split;
        [apply NumberToString_digitRun, Hb | reflexivity]. }
    rewrite M; cbn [deref bind].
    rewrite (ToNumber_NumberToString b Hb), (numberAdd_safe b Hb); reflexivity.
  - unfold computeNextMainVersion; rewrite (parseSemver_formatSemver v Hv).
    cbn [bind nullish].
    destruct Hv as (_ & _ & S3); rewrite (numberAdd_safe _ S3); reflexivity.
Qed.

Lemma emitted_version_chains_witness :
  computeNextPreReleaseVersion (Some (js "1.2.0"))
    (Some (preReleaseText (mkSemver 1 2 0) 6))
  = Normal (mkSemver 1 2 0, 7)
  /\ computeNextMainVersion (Some (formatSemver (mkSemver 2 3 5))) PATCH
     = Normal (mkSemver 2 3 6).
Proof.
  apply (emitted_version_chains (Some (js "1.2.0")) (Some (mkSemver 1 2 0)) 6
           (mkSemver 2 3 5)); solve [reflexivity | safe_range].
Defined.

(* ================================================================== *)
(** ** Stable tags with leading zeros *)






(* ================================================================== *)
(** ** A free first candidate *)


